(** * asc-transformers, exercise_01: character tokenizer and Seq2Seq driver

    A shallow embedding of the Python code of [exercise/exercise_01.ipynb]:
    the tokenizer ([build_tokenizer], [tokenize], the inline detokenizing
    join), the [Encoder.forward] and [Decoder.forward] method bodies, and the
    two [Seq2Seq] drivers ([forward], [forward_train]).

    Conventions.
    - A Python [str] is a [string]; iterating a [str] yields its
      one-character strings ([chars]).  Characters are 8-bit, which covers
      the corpus alphabet [string.ascii_lowercase].
    - A Python [dict] is a [gmap]; a failed subscript raises [KeyError].
    - Python exceptions are values of [exn]; a computation that may raise
      returns a [result].
    - A torch tensor is a shape with the row-major list of its entries. *)

From Stdlib Require Import ZArith Ascii.
From stdpp Require Import gmap strings list sorting.

Local Open Scope Z_scope.
Local Open Scope nat_scope.

(** ** Python exceptions *)

Inductive key : Type :=
  | StrKey (s : string)
  | IntKey (n : nat).

Inductive exn : Type :=
  | KeyError (k : key)
  | UnboundLocalError (name : string)
  | AttributeError (attr : string)
  | IndexError
  | TypeError
  | RuntimeError (msg : string).

Inductive result (A : Type) : Type :=
  | Ok (a : A)
  | Raise (e : exn).
Arguments Ok {A} a.
Arguments Raise {A} e.

Global Instance result_ret : MRet result := λ A a, Ok a.
Global Instance result_bind : MBind result := λ A B f m,
  match m with
  | Ok a => f a
  | Raise e => Raise e
  end.

Definition is_Raise {A} (r : result A) : Prop :=
  match r with Ok _ => False | Raise _ => True end.

(** ** Tokenizer *)

Module Tokenizer.

(** [for letter in s]: the one-character strings of [s], in order. *)
Fixpoint chars (s : string) : list string :=
  match s with
  | EmptyString => []
  | String c rest => String c EmptyString :: chars rest
  end.

(** ["".join(l)] *)
Fixpoint join (l : list string) : string :=
  match l with
  | [] => EmptyString
  | s :: rest => s +:+ join rest
  end.

(** [sorted(l)] on a list of [str]: ascending, by code points. *)
Definition sorted (l : list string) : list string := merge_sort String.le l.

(** [enumerate(l)] *)
Definition enumerate {A} (l : list A) : list (nat * A) := imap pair l.

(** [{k: v for ...}]: entries are stored left to right, a later entry
    overwrites an earlier one with the same key. *)
Definition dict {K V} `{Countable K} (kvs : list (K * V)) : gmap K V :=
  foldl (λ m kv, <[kv.1 := kv.2]> m) ∅ kvs.

(** [d[k]] *)
Definition getitem_str {V} (d : gmap string V) (k : string) : result V :=
  match d !! k with
  | Some v => Ok v
  | None => Raise (KeyError (StrKey k))
  end.
Definition getitem_int {V} (d : gmap nat V) (k : nat) : result V :=
  match d !! k with
  | Some v => Ok v
  | None => Raise (KeyError (IntKey k))
  end.

(** The dictionary returned by [build_tokenizer]. *)
Record Vocab : Type := {
  stoi : gmap string nat;
  itos : gmap nat string;
  sos_token_id : nat;
  eos_token_id : nat;
  unk_token_id : nat
}.

Definition reserved : list string := ["<sos>"; "<eos>"; "<unk>"].

(** [set(joined)] has no specified iteration order: [list(set(joined))] is
    some duplicate-free listing of the characters of [joined]. *)
Definition set_listing (joined : string) (listing : list string) : Prop :=
  NoDup listing ∧ ∀ x, x ∈ listing ↔ x ∈ chars joined.

(** The body of [build_tokenizer] once [list(set("".join(sents)))] has
    produced [listing]. *)
Definition build_tokenizer_from (listing : list string) : result Vocab :=
  let vocab := sorted listing in
  let vocab := vocab ++ ["<sos>"] in
  let vocab := vocab ++ ["<eos>"] in
  let vocab := vocab ++ ["<unk>"] in
  let vocab_stoi := dict ((λ it, (it.2, it.1)) <$> enumerate vocab) in
  let vocab_itos := dict (enumerate vocab) in
  sos_token_id ← getitem_str vocab_stoi "<sos>";
  eos_token_id ← getitem_str vocab_stoi "<eos>";
  unk_token_id ← getitem_str vocab_stoi "<unk>";
  Ok {| stoi := vocab_stoi;
        itos := vocab_itos;
        sos_token_id := sos_token_id;
        eos_token_id := eos_token_id;
        unk_token_id := unk_token_id |}.

(** [build_tokenizer(sents)], with the set listed in the order of stdpp's
    [elements]. *)
Definition build_tokenizer (sents : list string) : result Vocab :=
  build_tokenizer_from
    (elements (list_to_set (chars (join sents)) : gset string)).

(** The inner loop of [tokenize]: [_retval.append(vocab["stoi"][letter])]. *)
Fixpoint tokenize_letters (vocab : Vocab) (letters : list string)
    (_retval : list nat) : result (list nat) :=
  match letters with
  | [] => Ok _retval
  | letter :: rest =>
      i ← getitem_str (stoi vocab) letter;
      tokenize_letters vocab rest (_retval ++ [i])
  end.

(** The outer loop of [tokenize]. *)
Fixpoint tokenize_sents (vocab : Vocab) (sents : list string)
    (retval : list (list nat)) : result (list (list nat)) :=
  match sents with
  | [] => Ok retval
  | sent :: rest =>
      _retval ← tokenize_letters vocab (chars sent) [sos_token_id vocab];
      let _retval := _retval ++ [eos_token_id vocab] in
      tokenize_sents vocab rest (retval ++ [_retval])
  end.

Definition tokenize (sents : list string) (vocab : Vocab)
    : result (list (list nat)) :=
  tokenize_sents vocab sents [].

(** [[vocab["itos"][i] for i in seqs]] *)
Fixpoint itos_all (vocab : Vocab) (seqs : list nat) : result (list string) :=
  match seqs with
  | [] => Ok []
  | i :: rest =>
      token ← getitem_int (itos vocab) i;
      tokens ← itos_all vocab rest;
      Ok (token :: tokens)
  end.

(** ["".join([vocab["itos"][i] for i in seqs])] *)
Definition detokenize (vocab : Vocab) (seqs : list nat) : result string :=
  tokens ← itos_all vocab seqs;
  Ok (join tokens).

(** [seq] is [s] tokenized: the start id, the ids of its letters, the end id. *)
Definition tokenized (v : Vocab) (s : string) (seq : list nat) : Prop :=
  ∃ ids, seq = sos_token_id v :: ids ++ [eos_token_id v]
         ∧ Forall2 (λ x i, stoi v !! x = Some i) (chars s) ids.

End Tokenizer.

(** ** Tensors *)

Module Torch.

(** A tensor: its [shape] and its entries in row-major order. *)
Record tensor (A : Type) : Type := Tensor {
  shape : list nat;
  data : list A
}.
Arguments Tensor {A} shape data.
Arguments shape {A} t.
Arguments data {A} t.

(** Number of entries of a tensor of shape [sh]. *)
Definition numel (sh : list nat) : nat := foldr Nat.mul 1 sh.

(** [t.unsqueeze(0)] *)
Definition unsqueeze0 {A} (t : tensor A) : tensor A :=
  Tensor (1 :: shape t) (data t).

(** [t.unsqueeze(1)]; dimension 1 is out of range for a 0-d tensor. *)
Definition unsqueeze1 {A} (t : tensor A) : result (tensor A) :=
  match shape t with
  | [] => Raise IndexError
  | d0 :: rest => Ok (Tensor (d0 :: 1 :: rest) (data t))
  end.

(** [t.squeeze(0)]: drops dimension 0 when its size is 1, else no change. *)
Definition squeeze0 {A} (t : tensor A) : tensor A :=
  match shape t with
  | 1 :: rest => Tensor rest (data t)
  | _ => t
  end.

(** The values of a [torch.long] entry. *)
Definition int64 (z : Z) : Prop := (- 2 ^ 63 ≤ z < 2 ^ 63)%Z.

(** [torch.ones((1, 1), dtype=torch.long) * c], for [c] within [int64] *)
Definition ones_1_1_times (c : Z) : tensor Z := Tensor [1; 1] [(1 * c)%Z].

(** [t * c] on an integer tensor. *)
Definition times (t : tensor Z) (c : Z) : tensor Z :=
  Tensor (shape t) ((λ x, (x * c)%Z) <$> data t).

(** The slices of [t] along dimension 0. *)
Definition rows {A} (t : tensor A) : list (list A) :=
  match shape t with
  | d0 :: rest => reshape (replicate d0 (numel rest)) (data t)
  | [] => []
  end.

(** [t[0]] *)
Definition getitem0 {A} (t : tensor A) : result (tensor A) :=
  match shape t with
  | S _ :: rest => Ok (Tensor rest (take (numel rest) (data t)))
  | _ => Raise IndexError
  end.

(** [t.item()] *)
Definition item {A} (t : tensor A) : result A :=
  match data t with
  | [x] => Ok x
  | _ => Raise (RuntimeError "only one element tensors can be converted to Python scalars")
  end.

(** [t[:, j]] *)
Definition select_dim1 {A} (t : tensor A) (j : nat) : result (tensor A) :=
  match shape t with
  | d0 :: d1 :: rest =>
      if decide (j < d1)
      then Ok (Tensor (d0 :: rest)
                 (concat ((λ row, take (numel rest) (drop (j * numel rest) row))
                            <$> reshape (replicate d0 (d1 * numel rest)) (data t))))
      else Raise IndexError
  | _ => Raise IndexError
  end.

(** [torch.cat(ts, dim=1)].  Which exception class an empty list gets
    depends on the version of torch; the properties below use of that
    case only that the call raises. *)
Definition cat_dim1 {A} (ts : list (tensor A)) : result (tensor A) :=
  match ts with
  | [] => Raise (RuntimeError "torch.cat(): expected a non-empty list of Tensors")
  | t :: _ =>
      match shape t with
      | d0 :: _ :: rest =>
          if forallb (λ u, match shape u with
                           | d0' :: _ :: rest' => bool_decide (d0' = d0 ∧ rest' = rest)
                           | _ => false
                           end) ts
          then Ok (Tensor (d0 :: sum_list ((λ u, nth 1 (shape u) 0) <$> ts) :: rest)
                     (concat ((λ a, concat ((λ u, nth a (rows u) []) <$> ts))
                                <$> seq 0 d0)))
          else Raise (RuntimeError "Sizes of tensors must match except in dimension 1")
      | _ => Raise IndexError
      end
  end.

(** [h.shape[i]] where [h] is a tensor or Python's [None]. *)
Definition shape_at {A} (h : option (tensor A)) (i : nat) : result nat :=
  match h with
  | None => Raise (AttributeError "shape")
  | Some t =>
      match shape t !! i with
      | Some d => Ok d
      | None => Raise IndexError
      end
  end.

(** Reading a local variable; it is unbound until its first assignment. *)
Definition read_local {A} (name : string) (v : option A) : result A :=
  match v with
  | Some a => Ok a
  | None => Raise (UnboundLocalError name)
  end.

(** [range(n)] *)
Definition range (n : Z) : list nat := seq 0 (Z.to_nat n).

(** The parts of torch that are taken as given: floating-point entries and
    their division, [torch.nn.Softmax(dim=0)], [torch.multinomial] with the
    state of the random generator it draws from, and [torch.ones] called
    with a tensor as first entry of the size. *)
Class Framework : Type := {
  F : Type;
  RNG : Type;
  fdiv : F → F → F;
  softmax_dim0 : tensor F → tensor F;
  multinomial : tensor F → nat → RNG → result (tensor Z) * RNG;
  ones_tensor_size : tensor Z → nat → result (tensor Z)
}.

(** [t / c] on a float tensor. *)
Definition div `{Framework} (t : tensor F) (c : F) : tensor F :=
  Tensor (shape t) ((λ x, fdiv x c) <$> data t).

End Torch.

(** ** Encoder, Decoder and Seq2Seq *)

Module Model.
Import Torch.

(** Computations that read and update a state and may raise. *)
Definition SE (S A : Type) : Type := S → result A * S.

Global Instance SE_ret {S} : MRet (SE S) := λ A a s, (Ok a, s).
Global Instance SE_bind {S} : MBind (SE S) := λ A B f m s,
  match m s with
  | (Ok a, s') => f a s'
  | (Raise e, s') => (Raise e, s')
  end.

Definition lift_result {S A} (r : result A) : SE S A := λ s, (r, s).

Section Model.
Context `{Framework}.

(** A hidden state: a float tensor, or [None]. *)
Definition hidden_state : Type := option (tensor F).

(** *** [Encoder.forward] and [Decoder.forward] as they are in the notebook *)

(** [Encoder.forward(self, X)]: the body is [pass]. *)
Definition Encoder_forward (X : tensor Z) : SE RNG hidden_state :=
  mret None.

(** [Decoder.forward(self, input_tokens, hidden)]: the body is
    [output = self.fc(output); return output, hidden]; [self_fc] is the
    layer [self.fc].  No assignment to the local [output] precedes its
    use. *)
Definition Decoder_forward (self_fc : tensor F → SE RNG (tensor F))
    (input_tokens : tensor Z) (hidden : hidden_state)
    : SE RNG (tensor F * hidden_state) :=
  let output : option (tensor F) := None in
  output ← lift_result (read_local "output" output);
  output ← self_fc output;
  mret (output, hidden).

(** *** [Seq2Seq] *)

(** The attributes set by [Seq2Seq.__init__]. *)
Record Seq2Seq : Type := {
  eos_token_id : Z;
  sos_token_id : Z;
  encoder : tensor Z → SE RNG hidden_state;
  decoder : tensor Z → hidden_state → SE RNG (tensor F * hidden_state)
}.

(** The calls made to the two sub-modules, in order. *)
Inductive call : Type :=
  | EncoderCall (X : tensor Z)
  | DecoderCall (input_tokens : tensor Z) (hidden : hidden_state).

Record World : Type := {
  rng : RNG;
  calls : list call
}.

Definition lift_rng {A} (c : SE RNG A) : SE World A := λ w,
  let '(r, g) := c (rng w) in (r, {| rng := g; calls := calls w |}).

Definition record (c : call) : SE World unit := λ w,
  (Ok (), {| rng := rng w; calls := calls w ++ [c] |}).

(** [self.encoder(X)] *)
Definition call_encoder (self : Seq2Seq) (X : tensor Z) : SE World hidden_state :=
  record (EncoderCall X);; lift_rng (encoder self X).

(** [self.decoder(input_tokens, hidden)] *)
Definition call_decoder (self : Seq2Seq) (input_tokens : tensor Z)
    (hidden : hidden_state) : SE World (tensor F * hidden_state) :=
  record (DecoderCall input_tokens hidden);;
  lift_rng (decoder self input_tokens hidden).

(** [torch.multinomial(probs, 1)[0].item()] *)
Definition sample_item (probs : tensor F) : SE World Z :=
  sample ← lift_rng (multinomial probs 1);
  first ← lift_result (getitem0 sample);
  lift_result (item first).

(** The [for _ in range(max_output_len)] loop of [Seq2Seq.forward];
    [iterations] are the values of the range still to come. *)
Fixpoint forward_loop (self : Seq2Seq) (temperature : F) (iterations : list nat)
    (decoder_input : tensor Z) (decoder_hidden : hidden_state)
    (generated_seqs : list Z) : SE World (list Z) :=
  match iterations with
  | [] => mret generated_seqs
  | _ :: iterations =>
      '(output, decoder_hidden) ← call_decoder self decoder_input decoder_hidden;
      let probs := softmax_dim0 (div (squeeze0 output) temperature) in
      decoder_input ← sample_item probs;
      let generated_seqs := generated_seqs ++ [decoder_input] in
      if decide (decoder_input = eos_token_id self)
      then mret generated_seqs
      else
        let decoder_input := ones_1_1_times decoder_input in
        forward_loop self temperature iterations decoder_input decoder_hidden
          generated_seqs
  end.

(** [Seq2Seq.forward(self, input_tokens, max_output_len, temperature)] *)
Definition forward (self : Seq2Seq) (input_tokens : tensor Z)
    (max_output_len : Z) (temperature : F) : SE World (list Z) :=
  hidden ← call_encoder self (unsqueeze0 input_tokens);
  let decoder_input := ones_1_1_times (sos_token_id self) in
  let generated_seqs := [] in
  let decoder_hidden := hidden in
  forward_loop self temperature (range max_output_len)
    decoder_input decoder_hidden generated_seqs.

(** The [for token in range(hidden.shape[1]-1)] loop of
    [Seq2Seq.forward_train].  The local [decoder_inputs] is assigned only
    at the end of the loop body. *)
Fixpoint forward_train_loop (self : Seq2Seq) (output_tokens : tensor Z)
    (tokens : list nat) (decoder_inputs : option (tensor Z))
    (decoder_hidden : hidden_state) (output_list : list (tensor F))
    : SE World (list (tensor F)) :=
  match tokens with
  | [] => mret output_list
  | token :: tokens =>
      decoder_inputs_now ← lift_result (read_local "decoder_inputs" decoder_inputs);
      '(output, decoder_hidden) ← call_decoder self decoder_inputs_now decoder_hidden;
      column ← lift_result (select_dim1 output_tokens (token + 1));
      decoder_inputs ← lift_result (unsqueeze1 column);
      let output_list := output_list ++ [output] in
      forward_train_loop self output_tokens tokens (Some decoder_inputs)
        decoder_hidden output_list
  end.

(** [Seq2Seq.forward_train(self, input_tokens, output_tokens)] *)
Definition forward_train (self : Seq2Seq) (input_tokens output_tokens : tensor Z)
    : SE World (tensor F) :=
  let output_list := [] in
  hidden ← call_encoder self input_tokens;
  first ← lift_result (getitem0 input_tokens);
  ones ← lift_result (ones_tensor_size first 1);
  let decoder_input := times ones (sos_token_id self) in
  let decoder_hidden := hidden in
  n ← lift_result (shape_at hidden 1);
  output_list ← forward_train_loop self output_tokens
                  (range (Z.of_nat n - 1)) None decoder_hidden output_list;
  lift_result (cat_dim1 output_list).

(** The sub-modules and the sampler never raise. *)
Definition encoder_total (self : Seq2Seq) : Prop :=
  ∀ X g, ∃ hidden g', encoder self X g = (Ok hidden, g').
Definition decoder_total (self : Seq2Seq) : Prop :=
  ∀ input_tokens hidden g, ∃ output hidden' g',
    decoder self input_tokens hidden g = (Ok (output, hidden'), g').
Definition sampler_total : Prop :=
  ∀ probs g, ∃ sample first token g',
    multinomial probs 1 g = (Ok sample, g')
    ∧ getitem0 sample = Ok first ∧ item first = Ok token.

(** The decoding steps behind a list of tokens: each step is one decoder
    call on the current input and hidden state, followed by one draw from
    the softmax of its output over the temperature; the token drawn is the
    next token of the list and, as a (1, 1) tensor, the input of the next
    step, with the hidden state the decoder returned. *)
Inductive sampled_run (self : Seq2Seq) (temperature : F)
    : tensor Z → hidden_state → World → list Z → World → Prop :=
  | sampled_nil decoder_input decoder_hidden w :
      sampled_run self temperature decoder_input decoder_hidden w [] w
  | sampled_cons decoder_input decoder_hidden w output decoder_hidden' w1
      token w2 tokens w' :
      call_decoder self decoder_input decoder_hidden w
      = (Ok (output, decoder_hidden'), w1) →
      sample_item (softmax_dim0 (div (squeeze0 output) temperature)) w1
      = (Ok token, w2) →
      sampled_run self temperature (ones_1_1_times token) decoder_hidden' w2
        tokens w' →
      sampled_run self temperature decoder_input decoder_hidden w
        (token :: tokens) w'.

(** The decoding steps that end in an exception: after steps whose
    decoder call and draw returned, the decoder call of a step raises
    it, or the draw of that step does. *)
Inductive raising_run (self : Seq2Seq) (temperature : F)
    : tensor Z → hidden_state → World → exn → World → Prop :=
  | raising_decoder decoder_input decoder_hidden w e w' :
      call_decoder self decoder_input decoder_hidden w = (Raise e, w') →
      raising_run self temperature decoder_input decoder_hidden w e w'
  | raising_sample decoder_input decoder_hidden w output decoder_hidden' w1
      e w' :
      call_decoder self decoder_input decoder_hidden w
      = (Ok (output, decoder_hidden'), w1) →
      sample_item (softmax_dim0 (div (squeeze0 output) temperature)) w1
      = (Raise e, w') →
      raising_run self temperature decoder_input decoder_hidden w e w'
  | raising_later decoder_input decoder_hidden w output decoder_hidden' w1
      token w2 e w' :
      call_decoder self decoder_input decoder_hidden w
      = (Ok (output, decoder_hidden'), w1) →
      sample_item (softmax_dim0 (div (squeeze0 output) temperature)) w1
      = (Ok token, w2) →
      raising_run self temperature (ones_1_1_times token) decoder_hidden' w2
        e w' →
      raising_run self temperature decoder_input decoder_hidden w e w'.

End Model.
End Model.

(** ** A small instance, to run the model on concrete inputs *)

Module Toy.
Import Torch Model.

(** Entries are integers, the generator state is the list of the tokens
    still to be drawn ([0] once it is exhausted), [torch.ones] takes a
    one-element tensor for the integer it holds. *)
Global Instance toy_framework : Framework := {|
  F := Z;
  RNG := list Z;
  fdiv := Z.div;
  softmax_dim0 := λ t, t;
  multinomial := λ probs n g,
    match g with
    | token :: g' => (Ok (Tensor [1] [token]), g')
    | [] => (Ok (Tensor [1] [0%Z]), [])
    end;
  ones_tensor_size := λ t n,
    match data t with
    | [k] => Ok (Tensor [Z.to_nat k; n] (replicate (Z.to_nat k * n) 1%Z))
    | _ => Raise TypeError
    end
|}.

(** An encoder and a decoder with the documented shapes: two layers,
    hidden size 4, vocabulary size 3. *)
Definition toy_encoder (X : tensor Z) : SE RNG hidden_state := λ g,
  let B := nth 0 (shape X) 0 in
  (Ok (Some (Tensor [2; B; 4] (replicate (2 * B * 4) 0%Z))), g).

Definition toy_decoder (input_tokens : tensor Z) (hidden : hidden_state)
    : SE RNG (tensor F * hidden_state) := λ g,
  let B := nth 0 (shape input_tokens) 0 in
  (Ok (Tensor [B; 3] (replicate (B * 3) 0%Z), hidden), g).

Definition toy_model : Seq2Seq := {|
  eos_token_id := 2;
  sos_token_id := 1;
  encoder := toy_encoder;
  decoder := toy_decoder
|}.

Definition toy_world (draws : list Z) : World := {| rng := draws; calls := [] |}.

End Toy.

(** ** Data preparation and deciphering cells *)

Module Data.
Import Torch.

(** What these cells raise themselves, and [LibraryError] for any other
    exception that a call into a library raises, by the name of its
    class. *)
Inductive data_exn : Type :=
  | AssertionError
  | ValueError (msg : string)
  | KeyErrorInt (k : Z)
  | LibraryError (name : string).

Inductive outcome (A : Type) : Type :=
  | Returned (a : A)
  | Failed (e : data_exn).
Arguments Returned {A} a.
Arguments Failed {A} e.

(** [string.ascii_lowercase] *)
Definition ascii_lowercase : string := "abcdefghijklmnopqrstuvwxyz".

(** The libraries the cells call: [random.choices(population, k=k)] with
    the state of the generator it draws from, and the types of the keys
    and the alphabets of [secretpy] with its alphabet [al.ENGLISH].  A
    call returns or raises. *)
Class Library : Type := {
  RandomState : Type;
  random_choices :
    list string → Z → RandomState → outcome (list string) * RandomState;
  cipher_key_type : Type;
  alphabet : Type;
  al_ENGLISH : alphabet
}.

(** A cipher object: [cipher.encrypt(text, key, alphabet)] and
    [cipher.decrypt(text, key, alphabet)]; the alphabet is [None] when the
    call leaves it out.  A call returns a string or raises. *)
Record Cipher `{Library} : Type := {
  encrypt : string → cipher_key_type → option alphabet → outcome string;
  decrypt : string → cipher_key_type → option alphabet → outcome string
}.

(** What [random.choices] promises of the list it returns on a population
    that is not empty: [k] draws (none for a negative [k]), each from the
    population. *)
Definition choices_contract `{Library} : Prop :=
  ∀ population k g letters g',
    population ≠ [] →
    random_choices population k g = (Returned letters, g') →
    length letters = Z.to_nat k
    ∧ ∀ x, x ∈ letters → x ∈ population.

(** A sequence the loop may draw: [seq_len] lowercase letters. *)
Definition drawable (seq_len : Z) (s : string) : Prop :=
  String.length s = Z.to_nat seq_len
  ∧ ∀ x, x ∈ Tokenizer.chars s → x ∈ Tokenizer.chars ascii_lowercase.

(** A pair of a drawn sequence and its ciphertext, as the loop stores it. *)
Definition stored `{Library} (cipher_key : cipher_key_type) (cipher : Cipher)
    (seq_len : Z) (s c : string) : Prop :=
  encrypt cipher s cipher_key (Some al_ENGLISH) = Returned c
  ∧ decrypt cipher c cipher_key None = Returned s
  ∧ drawable seq_len s.

(** The [for _ in range(n_seqs)] loop of [generate_random_sequences]. *)
Fixpoint generate_loop `{Library} (cipher_key : cipher_key_type) (cipher : Cipher)
    (iterations : list nat) (seq_len : Z) (sents ciphered_sents : list string)
    (g : RandomState) : outcome (list string * list string) * RandomState :=
  match iterations with
  | [] => (Returned (ciphered_sents, sents), g)
  | _ :: iterations =>
      match random_choices (Tokenizer.chars ascii_lowercase) seq_len g with
      | (Failed e, g) => (Failed e, g)
      | (Returned letters, g) =>
          let sequence := Tokenizer.join letters in
          match encrypt cipher sequence cipher_key (Some al_ENGLISH) with
          | Failed e => (Failed e, g)
          | Returned ciphered_sequence =>
              match decrypt cipher ciphered_sequence cipher_key None with
              | Failed e => (Failed e, g)
              | Returned decrypted =>
                  if decide (sequence = decrypted)
                  then
                    let sents := sents ++ [sequence] in
                    let ciphered_sents :=
                      ciphered_sents ++ [ciphered_sequence] in
                    generate_loop cipher_key cipher iterations seq_len sents
                      ciphered_sents g
                  else (Failed AssertionError, g)
              end
          end
      end
  end.

(** [generate_random_sequences(cipher_key, cipher, n_seqs, seq_len)] *)
Definition generate_random_sequences `{Library} (cipher_key : cipher_key_type)
    (cipher : Cipher) (n_seqs seq_len : Z) (g : RandomState)
    : outcome (list string * list string) * RandomState :=
  let sents := [] in
  let ciphered_sents := [] in
  generate_loop cipher_key cipher (range n_seqs) seq_len sents
    ciphered_sents g.

(** [torch.tensor(rows)] on a list of lists of integers: every row must
    have the length of the first. *)
Definition torch_tensor (rows : list (list nat)) : outcome (tensor Z) :=
  match rows with
  | [] => Returned (Tensor [0] [])
  | row :: _ =>
      if forallb (λ r, length r =? length row) rows
      then Returned (Tensor [length rows; length row] (Z.of_nat <$> concat rows))
      else Failed (ValueError "expected sequence of equal lengths")
  end.

(** [[vocab["itos"][i] for i in seqs]] on the integers a model returns. *)
Fixpoint itos_all_ints (vocab : Tokenizer.Vocab) (seqs : list Z)
    : outcome (list string) :=
  match seqs with
  | [] => Returned []
  | i :: rest =>
      match (if decide (0 ≤ i)%Z
             then Tokenizer.itos vocab !! Z.to_nat i else None) with
      | None => Failed (KeyErrorInt i)
      | Some token =>
          match itos_all_ints vocab rest with
          | Returned tokens => Returned (token :: tokens)
          | Failed e => Failed e
          end
      end
  end.

(** [deciphered_text = "".join([trg_vocab["itos"][i] for i in seqs])] *)
Definition decipher_join (vocab : Tokenizer.Vocab) (seqs : list Z)
    : outcome string :=
  match itos_all_ints vocab seqs with
  | Returned tokens => Returned (Tokenizer.join tokens)
  | Failed e => Failed e
  end.

End Data.

(** A cipher and a generator to run the data cells on: the draws are read
    off a list, the cipher swaps ["a"] and ["b"]. *)
Module ToyData.
Import Data.

Definition swap_ab_char (c : ascii) : ascii :=
  if decide (c = "a"%char) then "b"%char
  else if decide (c = "b"%char) then "a"%char else c.

Fixpoint swap_ab (s : string) : string :=
  match s with
  | EmptyString => EmptyString
  | String c rest => String (swap_ab_char c) (swap_ab rest)
  end.

Global Instance toy_library : Library := {|
  RandomState := list string;
  random_choices := λ population k g,
    (Returned
       (take (Z.to_nat k)
          ((λ x, if decide (x ∈ population) then x
                 else default "" (head population))
             <$> (g ++ replicate (Z.to_nat k) ""))),
     drop (Z.to_nat k) g);
  cipher_key_type := Z;
  alphabet := unit;
  al_ENGLISH := ()
|}.

Definition toy_key : cipher_key_type := 3%Z.

Definition toy_cipher : Cipher := {|
  encrypt := λ text key alphabet, Returned (swap_ab text);
  decrypt := λ text key alphabet, Returned (swap_ab text)
|}.

(** A cipher whose [decrypt] does not undo [encrypt]. *)
Definition broken_cipher : Cipher := {|
  encrypt := λ text key alphabet, Returned (swap_ab text);
  decrypt := λ text key alphabet, Returned text
|}.

(** A cipher whose [decrypt] raises when it is called without an
    alphabet. *)
Definition raising_cipher : Cipher := {|
  encrypt := λ text key alphabet, Returned (swap_ab text);
  decrypt := λ text key alphabet,
    match alphabet with
    | Some _ => Returned (swap_ab text)
    | None => Failed (LibraryError "TypeError")
    end
|}.

(** The vocabulary of the corpus ["cab"; "abc"]. *)
Definition abc_vocab : Tokenizer.Vocab := {|
  Tokenizer.stoi :=
    Tokenizer.dict
      [("a", 0); ("b", 1); ("c", 2); ("<sos>", 3); ("<eos>", 4); ("<unk>", 5)];
  Tokenizer.itos :=
    Tokenizer.dict
      [(0, "a"); (1, "b"); (2, "c"); (3, "<sos>"); (4, "<eos>"); (5, "<unk>")];
  Tokenizer.sos_token_id := 3;
  Tokenizer.eos_token_id := 4;
  Tokenizer.unk_token_id := 5
|}.

(** The toy model with the start and end ids of [abc_vocab]. *)
Definition abc_model : Model.Seq2Seq := {|
  Model.eos_token_id := 4;
  Model.sos_token_id := 3;
  Model.encoder := Toy.toy_encoder;
  Model.decoder := Toy.toy_decoder
|}.

End ToyData.

(** * Properties *)

(** ** Tokenizer *)

Module TokenizerFacts.
Import Tokenizer.

(** *** Lists, dictionaries and strings *)

Lemma enumerate_snoc {A} (l : list A) (x : A) :
  enumerate (l ++ [x]) = enumerate l ++ [(length l, x)].
Proof.
  unfold enumerate. rewrite imap_app. simpl. by rewrite Nat.add_0_r.
Qed.

Lemma dict_snoc {K V} `{Countable K} (kvs : list (K * V)) k v :
  dict (kvs ++ [(k, v)]) = <[k := v]> (dict kvs).
Proof. unfold dict. by rewrite foldl_snoc. Qed.

Lemma dict_enumerate_lookup {A} (l : list A) (i : nat) :
  dict (enumerate l) !! i = l !! i.
Proof.
  induction l as [|x l IH] using rev_ind; [done|].
  rewrite enumerate_snoc, dict_snoc.
  destruct (decide (i = length l)) as [->|Hne].
  - rewrite lookup_insert_eq. by rewrite list_lookup_middle.
  - rewrite lookup_insert_ne by done. rewrite IH.
    destruct (decide (i < length l)).
    + by rewrite lookup_app_l.
    + rewrite !lookup_ge_None_2; [done| |lia].
      rewrite length_app. simpl. lia.
Qed.

Lemma dict_inverse_lookup (l : list string) (t : string) (i : nat) :
  NoDup l →
  dict ((λ it : nat * string, (it.2, it.1)) <$> enumerate l) !! t = Some i
  ↔ l !! i = Some t.
Proof.
  revert t i. induction l as [|x l IH] using rev_ind; intros t i Hnd.
  - by rewrite lookup_nil.
  - apply NoDup_app in Hnd as (Hnd & Hfresh & _).
    rewrite enumerate_snoc, fmap_app. simpl. rewrite dict_snoc.
    rewrite lookup_snoc_Some.
    destruct (decide (x = t)) as [->|Hne].
    + rewrite lookup_insert_eq. split.
      * intros [= <-]. by right.
      * intros [[_ Hl]|[-> _]]; [|done].
        exfalso. apply (Hfresh t); [by eapply list_elem_of_lookup_2|].
        apply list_elem_of_singleton. done.
    + rewrite lookup_insert_ne by done. rewrite IH by done. split.
      * intros Hl. left. split; [by eapply lookup_lt_Some|done].
      * intros [[_ Hl]|[_ ?]]; [done|congruence].
Qed.

Lemma chars_length_1 (s x : string) : x ∈ chars s → String.length x = 1.
Proof.
  induction s as [|c s IH]; simpl; [by intros ?%elem_of_nil|].
  intros [->|?]%elem_of_cons; [done|auto].
Qed.

Lemma join_chars (s : string) : join (chars s) = s.
Proof. induction s as [|c s IH]; simpl; [done|]. by rewrite IH. Qed.

Lemma reserved_not_char (s x : string) : x ∈ chars s → x ∉ reserved.
Proof.
  intros Hx%chars_length_1 Hr. unfold reserved in Hr.
  repeat (apply elem_of_cons in Hr as [->|Hr]; [done|]).
  by apply elem_of_nil in Hr.
Qed.

(** *** [sorted] *)

Lemma StronglySorted_lookup {A} (R : relation A) (l : list A) i j x y :
  StronglySorted R l → i < j → l !! i = Some x → l !! j = Some y → R x y.
Proof.
  intros Hs. revert i j. induction Hs as [|z l _ IH Hall]; intros i j Hij Hi Hj.
  - by rewrite lookup_nil in Hi.
  - destruct j as [|j]; [lia|]. simpl in Hj. destruct i as [|i]; simpl in Hi.
    + injection Hi as ->. eapply Forall_forall in Hall; [done|].
      by eapply list_elem_of_lookup_2.
    + apply (IH i j); [lia|done..].
Qed.

Lemma sorted_Permutation (l : list string) : sorted l ≡ₚ l.
Proof. apply merge_sort_Permutation. Qed.

Lemma sorted_elem_of (l : list string) x : x ∈ sorted l ↔ x ∈ l.
Proof. by rewrite sorted_Permutation. Qed.

Lemma sorted_NoDup (l : list string) : NoDup l → NoDup (sorted l).
Proof. by rewrite sorted_Permutation. Qed.

Lemma sorted_ascending (l : list string) : StronglySorted String.le (sorted l).
Proof. apply StronglySorted_merge_sort; apply _. Qed.

Lemma sorted_strict (l : list string) :
  NoDup l → StronglySorted (strict String.le) (sorted l).
Proof.
  intros Hnd%sorted_NoDup. pose proof (sorted_ascending l) as Hs.
  induction Hs as [|x k Hk IH Hall]; [constructor|].
  apply NoDup_cons in Hnd as [Hx Hnd]. constructor; [by apply IH|].
  apply Forall_forall. intros y Hy. split.
  - by eapply Forall_forall in Hall.
  - intros Hyx. assert (x = y) as ->; [|done].
    apply (anti_symm String.le); [|done]. by eapply Forall_forall in Hall.
Qed.

(** The order of the listing does not matter once it is sorted. *)
Lemma sorted_listing_unique (joined : string) (l1 l2 : list string) :
  set_listing joined l1 → set_listing joined l2 → sorted l1 = sorted l2.
Proof.
  intros [Hnd1 Hin1] [Hnd2 Hin2].
  apply (Sorted_unique String.le).
  - apply Sorted_merge_sort; apply _.
  - apply Sorted_merge_sort; apply _.
  - rewrite !sorted_Permutation. apply NoDup_Permutation; [done..|].
    intros x. by rewrite Hin1, Hin2.
Qed.

Lemma elements_set_listing (joined : string) :
  set_listing joined (elements (list_to_set (chars joined) : gset string)).
Proof.
  split; [apply NoDup_elements|].
  intros x. by rewrite elem_of_elements, elem_of_list_to_set.
Qed.

(** *** The vocabulary *)

(** The token list built by [build_tokenizer]. *)
Lemma vocab_list_NoDup (joined : string) (listing : list string) :
  set_listing joined listing → NoDup (sorted listing ++ reserved).
Proof.
  intros [Hnd Hin]. apply NoDup_app. split_and!.
  - by apply sorted_NoDup.
  - intros x Hx. apply (reserved_not_char joined).
    by apply Hin, sorted_elem_of.
  - unfold reserved. apply (bool_decide_unpack _). by vm_compute.
Qed.

Lemma build_tokenizer_from_eq (joined : string) (listing : list string) :
  set_listing joined listing →
  let alphabet := sorted listing in
  let vocab := alphabet ++ reserved in
  build_tokenizer_from listing =
    Ok {| stoi := dict ((λ it : nat * string, (it.2, it.1)) <$> enumerate vocab);
          itos := dict (enumerate vocab);
          sos_token_id := length alphabet;
          eos_token_id := length alphabet + 1;
          unk_token_id := length alphabet + 2 |}.
Proof.
  intros Hl alphabet vocab. pose proof (vocab_list_NoDup _ _ Hl) as Hnd.
  fold alphabet in Hnd. fold vocab in Hnd.
  unfold build_tokenizer_from. fold alphabet.
  replace (((alphabet ++ ["<sos>"]) ++ ["<eos>"]) ++ ["<unk>"]) with vocab
    by (unfold vocab, reserved; by rewrite <- !app_assoc).
  assert (Hat : ∀ j t, reserved !! j = Some t →
    getitem_str (dict ((λ it : nat * string, (it.2, it.1)) <$> enumerate vocab)) t
    = Ok (length alphabet + j)).
  { intros j t Hj. unfold getitem_str.
    assert (vocab !! (length alphabet + j) = Some t) as Hv.
    { unfold vocab. by rewrite lookup_app_r, Nat.add_comm, Nat.add_sub by lia. }
    apply (dict_inverse_lookup _ _ _ Hnd) in Hv. by rewrite Hv. }
  rewrite (Hat 0 "<sos>"), (Hat 1 "<eos>"), (Hat 2 "<unk>") by done.
  simpl. by rewrite Nat.add_0_r.
Qed.

Lemma vocab_layout (joined : string) (listing : list string) :
  set_listing joined listing →
  ∃ v : Vocab,
    build_tokenizer_from listing = Ok v
    ∧ (∀ i, itos v !! i = (sorted listing ++ reserved) !! i)
    ∧ (∀ t i, stoi v !! t = Some i ↔ itos v !! i = Some t)
    ∧ sos_token_id v = length (sorted listing)
    ∧ eos_token_id v = length (sorted listing) + 1
    ∧ unk_token_id v = length (sorted listing) + 2.
Proof.
  intros Hl. eexists. split; [apply (build_tokenizer_from_eq _ _ Hl)|]. simpl.
  split_and!; try done.
  - intros i. apply dict_enumerate_lookup.
  - intros t i. rewrite dict_enumerate_lookup.
    apply dict_inverse_lookup, (vocab_list_NoDup _ _ Hl).
Qed.

Lemma stoi_char (joined : string) (listing : list string) (v : Vocab) x :
  set_listing joined listing →
  build_tokenizer_from listing = Ok v →
  x ∈ chars joined →
  ∃ i, stoi v !! x = Some i ∧ itos v !! i = Some x ∧ i < sos_token_id v.
Proof.
  intros Hl Hv Hx. rewrite (build_tokenizer_from_eq _ _ Hl) in Hv.
  injection Hv as <-. simpl.
  assert (x ∈ sorted listing) as [i Hi]%list_elem_of_lookup_1.
  { apply sorted_elem_of. by apply Hl. }
  exists i. rewrite dict_enumerate_lookup.
  rewrite (dict_inverse_lookup _ _ _ (vocab_list_NoDup _ _ Hl)).
  pose proof (lookup_lt_Some _ _ _ Hi).
  by rewrite lookup_app_l.
Qed.

Lemma stoi_not_char (joined : string) (listing : list string) (v : Vocab) s x :
  set_listing joined listing →
  build_tokenizer_from listing = Ok v →
  x ∈ chars s → x ∉ chars joined →
  stoi v !! x = None.
Proof.
  intros Hl Hv Hx Hnx. rewrite (build_tokenizer_from_eq _ _ Hl) in Hv.
  injection Hv as <-. simpl.
  apply eq_None_not_Some. intros [i Hi].
  apply (dict_inverse_lookup _ _ _ (vocab_list_NoDup _ _ Hl)) in Hi.
  apply list_elem_of_lookup_2, elem_of_app in Hi as [Hi|Hi].
  - apply Hnx, Hl. by apply sorted_elem_of.
  - by apply (reserved_not_char s x).
Qed.

Lemma stoi_range (joined : string) (listing : list string) (v : Vocab) x i :
  set_listing joined listing →
  build_tokenizer_from listing = Ok v →
  x ∉ reserved → stoi v !! x = Some i → i < sos_token_id v.
Proof.
  intros Hl Hv Hx Hi. rewrite (build_tokenizer_from_eq _ _ Hl) in Hv.
  injection Hv as <-. simpl in *.
  apply (dict_inverse_lookup _ _ _ (vocab_list_NoDup _ _ Hl)) in Hi.
  apply lookup_app_Some in Hi as [Hi|[_ Hi]].
  - by eapply lookup_lt_Some.
  - by apply list_elem_of_lookup_2 in Hi.
Qed.

(** *** [tokenize] and the inverse table *)

(** [tokenize_letters] either looks every letter up, or raises the
    [KeyError] of a letter that [stoi] does not have. *)
Lemma tokenize_letters_cases (v : Vocab) (letters : list string) (acc : list nat) :
  (∃ ids, tokenize_letters v letters acc = Ok (acc ++ ids)
          ∧ Forall2 (λ x i, stoi v !! x = Some i) letters ids)
  ∨ (∃ x, tokenize_letters v letters acc = Raise (KeyError (StrKey x))
          ∧ x ∈ letters ∧ stoi v !! x = None).
Proof.
  revert acc. induction letters as [|x letters IH]; intros acc; simpl.
  - left. exists []. by rewrite app_nil_r.
  - unfold getitem_str. destruct (stoi v !! x) as [i|] eqn:Hx; simpl.
    + destruct (IH (acc ++ [i])) as [(ids & -> & Hids)|(y & -> & Hy & Hnone)].
      * left. exists (i :: ids). rewrite <- app_assoc. by split; [|constructor].
      * right. exists y. split_and!; [done| |done]. by right.
    + right. exists x. split_and!; [done| |done]. by left.
Qed.

Lemma tokenize_sents_cases (v : Vocab) (sents : list string)
    (acc : list (list nat)) :
  (∃ seqs, tokenize_sents v sents acc = Ok (acc ++ seqs)
           ∧ Forall2 (tokenized v) sents seqs)
  ∨ (∃ s x, tokenize_sents v sents acc = Raise (KeyError (StrKey x))
            ∧ s ∈ sents ∧ x ∈ chars s ∧ stoi v !! x = None).
Proof.
  revert acc. induction sents as [|s sents IH]; intros acc; simpl.
  - left. exists []. by rewrite app_nil_r.
  - destruct (tokenize_letters_cases v (chars s) [sos_token_id v])
      as [(ids & -> & Hids)|(x & -> & Hx & Hnone)]; simpl.
    + destruct (IH (acc ++ [sos_token_id v :: ids ++ [eos_token_id v]]))
        as [(seqs & -> & Hseqs)|(s' & y & -> & Hs' & Hy & Hnone)].
      * left. eexists (_ :: seqs). rewrite <- app_assoc. split; [done|].
        constructor; [|done]. by exists ids.
      * right. exists s', y. split_and!; [done| |done..]. by right.
    + right. exists s, x. split_and!; [done| |done..]. by left.
Qed.

Lemma itos_all_stoi (joined : string) (listing : list string) (v : Vocab)
    (letters : list string) (ids : list nat) :
  set_listing joined listing →
  build_tokenizer_from listing = Ok v →
  (∀ x, x ∈ letters → x ∈ chars joined) →
  Forall2 (λ x i, stoi v !! x = Some i) letters ids →
  itos_all v ids = Ok letters ∧ Forall (λ i, i < sos_token_id v) ids.
Proof.
  intros Hl Hv Hsub Hids. induction Hids as [|x i letters ids Hx _ IH]; [done|].
  destruct (stoi_char _ _ _ x Hl Hv) as (i' & Hi' & Hitos & Hlt).
  { apply Hsub. by left. }
  assert (i' = i) as -> by congruence.
  destruct IH as [IH1 IH2]. { intros y Hy. apply Hsub. by right. }
  simpl. unfold getitem_int. rewrite Hitos. simpl. rewrite IH1. simpl.
  by split; [|constructor].
Qed.

Lemma string_app_assoc (s1 s2 s3 : string) :
  (s1 +:+ s2) +:+ s3 = s1 +:+ (s2 +:+ s3).
Proof.
  induction s1 as [|c s1 IH]; [done|].
  change (String c ((s1 +:+ s2) +:+ s3) = String c (s1 +:+ (s2 +:+ s3))).
  by rewrite IH.
Qed.

Lemma join_app (l1 l2 : list string) : join (l1 ++ l2) = join l1 +:+ join l2.
Proof.
  induction l1 as [|s l1 IH]; simpl; [done|].
  by rewrite IH, string_app_assoc.
Qed.

Lemma itos_all_app (v : Vocab) (l1 l2 : list nat) :
  itos_all v (l1 ++ l2) =
    (t1 ← itos_all v l1; t2 ← itos_all v l2; Ok (t1 ++ t2)).
Proof.
  induction l1 as [|i l1 IH]; simpl.
  - by destruct (itos_all v l2).
  - destruct (getitem_int (itos v) i); simpl; [|done].
    rewrite IH. destruct (itos_all v l1); simpl; [|done].
    by destruct (itos_all v l2).
Qed.

Lemma filter_Forall_id {A} (P : A → Prop) `{∀ x, Decision (P x)} (l : list A) :
  Forall P l → filter P l = l.
Proof.
  induction 1 as [|x l Hx _ IH]; [done|].
  by rewrite filter_cons_True, IH.
Qed.

Lemma single_char_le (a b : ascii) :
  String.le (String a "") (String b "") ↔ (N_of_ascii a ≤ N_of_ascii b)%N.
Proof.
  unfold String.le, String.leb. simpl. unfold Ascii.compare.
  unfold N.le. destruct (N_of_ascii a ?= N_of_ascii b)%N; simpl; naive_solver.
Qed.

End TokenizerFacts.

Module TokenizerClaims.
Import Tokenizer TokenizerFacts.

(** C6. For a fixed corpus [build_tokenizer] is deterministic: whatever
    order the character set is listed in, the vocabulary is the same.  The
    distinct characters of the corpus get the ids [0..k-1] in ascending
    character order, ["<sos>"], ["<eos>"], ["<unk>"] get [k], [k+1], [k+2];
    [itos] is defined exactly on [0..k+2], [stoi] is its inverse, and the
    three reserved ids are pairwise distinct. *)
Theorem build_tokenizer_deterministic_layout
    (sents : list string) (listing1 listing2 : list string) :
  set_listing (join sents) listing1 →
  set_listing (join sents) listing2 →
  build_tokenizer_from listing1 = build_tokenizer_from listing2
  ∧ ∃ (v : Vocab) (alphabet : list string),
      build_tokenizer_from listing1 = Ok v
      ∧ build_tokenizer sents = Ok v
      ∧ (∀ x, x ∈ alphabet ↔ x ∈ chars (join sents))
      ∧ StronglySorted (strict String.le) alphabet
      ∧ (∀ i j a b, i < j →
           alphabet !! i = Some (String a "") →
           alphabet !! j = Some (String b "") →
           (N_of_ascii a < N_of_ascii b)%N)
      ∧ (∀ i, itos v !! i = (alphabet ++ ["<sos>"; "<eos>"; "<unk>"]) !! i)
      ∧ (∀ i, is_Some (itos v !! i) ↔ i < length alphabet + 3)
      ∧ (∀ t i, stoi v !! t = Some i ↔ itos v !! i = Some t)
      ∧ sos_token_id v = length alphabet
      ∧ eos_token_id v = length alphabet + 1
      ∧ unk_token_id v = length alphabet + 2
      ∧ sos_token_id v ≠ eos_token_id v
      ∧ sos_token_id v ≠ unk_token_id v
      ∧ eos_token_id v ≠ unk_token_id v.
Proof.
  intros Hl1 Hl2.
  pose proof (sorted_listing_unique _ _ _ Hl1 Hl2) as H12.
  pose proof (sorted_listing_unique _ _ _ Hl1 (elements_set_listing (join sents)))
    as H1e.
  split.
  { rewrite (build_tokenizer_from_eq _ _ Hl1), (build_tokenizer_from_eq _ _ Hl2).
    simpl. by rewrite H12. }
  destruct (vocab_layout _ _ Hl1) as (v & Hv & Hitos & Hinv & Hsos & Heos & Hunk).
  exists v, (sorted listing1). split; [done|].
  split.
  { unfold build_tokenizer.
    rewrite (build_tokenizer_from_eq _ _ (elements_set_listing (join sents))).
    rewrite (build_tokenizer_from_eq _ _ Hl1) in Hv. simpl in *.
    by rewrite <- H1e. }
  pose proof (sorted_strict listing1 (proj1 Hl1)) as Hstrict.
  split_and!; try done; try lia.
  - intros x. rewrite sorted_elem_of. apply Hl1.
  - intros i j a b Hij Hi Hj.
    destruct (StronglySorted_lookup _ _ i j _ _ Hstrict Hij Hi Hj) as [Hle Hnle].
    apply single_char_le in Hle.
    destruct (decide (N_of_ascii a = N_of_ascii b)) as [Heq|Hne]; [|lia].
    exfalso. apply Hnle, single_char_le. lia.
  - intros i. rewrite Hitos, lookup_lt_is_Some, length_app. simpl. lia.
Qed.

(** C4. Round trip: for a string [s] over the characters of the corpus,
    [tokenize [s]] returns the ids of the letters of [s] between the start
    id and the end id; mapping the ids back through [itos] and joining
    gives ["<sos>" ++ s ++ "<eos>"], and gives exactly [s] once the start
    and end ids are stripped (by position, or by dropping every id equal
    to one of them). *)
Theorem tokenizer_round_trip
    (sents : list string) (listing : list string) (s : string) :
  set_listing (join sents) listing →
  (∀ x, x ∈ chars s → x ∈ chars (join sents)) →
  ∃ (v : Vocab) (ids : list nat),
    build_tokenizer_from listing = Ok v
    ∧ tokenize [s] v = Ok [sos_token_id v :: ids ++ [eos_token_id v]]
    ∧ detokenize v (sos_token_id v :: ids ++ [eos_token_id v])
      = Ok ("<sos>" +:+ s +:+ "<eos>")
    ∧ filter (λ i, i ≠ sos_token_id v ∧ i ≠ eos_token_id v)
        (sos_token_id v :: ids ++ [eos_token_id v]) = ids
    ∧ detokenize v ids = Ok s.
Proof.
  intros Hl Hsub.
  destruct (vocab_layout _ _ Hl) as (v & Hv & Hitos & _ & Hsos & Heos & _).
  unfold tokenize.
  destruct (tokenize_sents_cases v [s] []) as [(seqs & Htok & Hseqs)|Hraise].
  - apply Forall2_cons_inv_l in Hseqs as (seq & seqs' & (ids & -> & Hids) & Hnil & ->).
    apply Forall2_nil_inv_l in Hnil as ->.
    destruct (itos_all_stoi _ _ _ _ _ Hl Hv Hsub Hids) as [Hall Hlt].
    exists v, ids. split_and!; [done|done| | |].
    + unfold detokenize.
      change (sos_token_id v :: ids ++ [eos_token_id v])
        with ([sos_token_id v] ++ ids ++ [eos_token_id v]).
      rewrite !itos_all_app, Hall. simpl. unfold getitem_int.
      rewrite !Hitos, Hsos, Heos, !lookup_app_r by lia.
      rewrite Nat.sub_diag.
      replace (length (sorted listing) + 1 - length (sorted listing)) with 1 by lia.
      simpl.
      by rewrite join_app, join_chars.
    + rewrite filter_cons_False by (intros [? _]; done).
      rewrite filter_app, filter_cons_False, filter_nil, app_nil_r
        by (intros [_ ?]; done).
      apply filter_Forall_id. eapply Forall_impl; [exact Hlt|].
      intros i Hi. simpl in *. lia.
    + unfold detokenize. rewrite Hall. simpl. by rewrite join_chars.
  - exfalso. destruct Hraise as (s' & x & _ & Hs' & Hx & Hnone).
    apply list_elem_of_singleton in Hs' as ->.
    destruct (stoi_char _ _ _ x Hl Hv (Hsub _ Hx)) as (i & Hi & _). congruence.
Qed.

(** C5. [tokenize] has no fallback to the unknown id.  If some sentence
    holds a character that does not occur in the corpus, the call raises
    the [KeyError] of such a character.  The id of ["<unk>"] is reserved in
    the vocabulary, and no sequence returned by [tokenize] contains it. *)
Theorem tokenize_unseen_character_raises
    (sents : list string) (listing : list string) (targets : list string) :
  set_listing (join sents) listing →
  ∃ v : Vocab,
    build_tokenizer_from listing = Ok v
    ∧ ((∃ s x, s ∈ targets ∧ x ∈ chars s ∧ x ∉ chars (join sents)) →
       (∃ s x, s ∈ targets ∧ x ∈ chars s ∧ (x ∉ chars (join sents))
               ∧ tokenize targets v = Raise (KeyError (StrKey x))))
    ∧ stoi v !! "<unk>" = Some (unk_token_id v)
    ∧ itos v !! unk_token_id v = Some "<unk>"
    ∧ (∀ seqs seq, tokenize targets v = Ok seqs →
         seq ∈ seqs → unk_token_id v ∉ seq).
Proof.
  intros Hl.
  destruct (vocab_layout _ _ Hl) as (v & Hv & Hitos & Hinv & Hsos & Heos & Hunk).
  assert (Hunk_itos : itos v !! unk_token_id v = Some "<unk>").
  { rewrite Hitos, Hunk, lookup_app_r by lia.
    by replace (length (sorted listing) + 2 - length (sorted listing)) with 2
      by lia. }
  exists v. split; [done|]. unfold tokenize.
  destruct (tokenize_sents_cases v targets [])
    as [(seqs & Htok & Hseqs)|(s & x & Htok & Hs & Hx & Hnone)].
  - split_and!; [|by apply Hinv|done|].
    + intros (s & x & Hs & Hx & Hnx). exfalso.
      apply list_elem_of_lookup_1 in Hs as [n Hn].
      destruct (Forall2_lookup_l _ _ _ _ _ Hseqs Hn) as (seq & _ & ids & _ & Hids).
      apply list_elem_of_lookup_1 in Hx as [m Hm].
      destruct (Forall2_lookup_l _ _ _ _ _ Hids Hm) as (i & _ & Hi).
      rewrite (stoi_not_char _ _ _ s x Hl Hv) in Hi; [done| |done].
      by eapply list_elem_of_lookup_2.
    + intros seqs' seq. rewrite Htok. intros [= <-] Hseq. simpl in Hseq.
      apply list_elem_of_lookup_1 in Hseq as [n Hn].
      destruct (Forall2_lookup_r _ _ _ _ _ Hseqs Hn) as (s & _ & ids & -> & Hids).
      rewrite elem_of_cons, elem_of_app, list_elem_of_singleton.
      intros [?|[Hin|?]]; [lia| |lia].
      apply list_elem_of_lookup_1 in Hin as [m Hm].
      destruct (Forall2_lookup_r _ _ _ _ _ Hids Hm) as (x & Hx & Hi).
      apply list_elem_of_lookup_2 in Hx.
      pose proof (stoi_range _ _ _ x _ Hl Hv (reserved_not_char _ _ Hx) Hi).
      lia.
  - split_and!; [|by apply Hinv|done|].
    + intros _. exists s, x. split_and!; [done..| |done].
      intros Hin. destruct (stoi_char _ _ _ x Hl Hv Hin) as (i & Hi & _).
      congruence.
    + intros seqs seq. by rewrite Htok.
Qed.

End TokenizerClaims.

Module ModelFacts.
Import Torch Model.

Section ModelFacts.
Context `{Framework}.

(** *** The state-and-exception monad *)

Lemma SE_bind_eq {S A B} (m : SE S A) (f : A → SE S B) (s : S) :
  (m ≫= f) s = match m s with
               | (Ok a, s') => f a s'
               | (Raise e, s') => (Raise e, s')
               end.
Proof. done. Qed.

Lemma SE_bind_Ok {S A B} (m : SE S A) (f : A → SE S B) (s s'' : S) (b : B) :
  (m ≫= f) s = (Ok b, s'') → ∃ a s', m s = (Ok a, s') ∧ f a s' = (Ok b, s'').
Proof.
  rewrite SE_bind_eq. destruct (m s) as [[a|e] s']; [|done]. eauto.
Qed.

Lemma call_encoder_eq (self : Seq2Seq) (X : tensor Z) (w : World) :
  call_encoder self X w =
    ((encoder self X (rng w)).1,
     {| rng := (encoder self X (rng w)).2; calls := calls w ++ [EncoderCall X] |}).
Proof.
  unfold call_encoder. rewrite SE_bind_eq. unfold record, lift_rng. simpl.
  by destruct (encoder self X (rng w)).
Qed.

Lemma call_decoder_eq (self : Seq2Seq) (X : tensor Z) (h : hidden_state)
    (w : World) :
  call_decoder self X h w =
    ((decoder self X h (rng w)).1,
     {| rng := (decoder self X h (rng w)).2;
        calls := calls w ++ [DecoderCall X h] |}).
Proof.
  unfold call_decoder. rewrite SE_bind_eq. unfold record, lift_rng. simpl.
  by destruct (decoder self X h (rng w)).
Qed.

Lemma sample_item_total (probs : tensor F) (w : World) :
  sampler_total → ∃ token w', sample_item probs w = (Ok token, w').
Proof.
  intros Hs. destruct (Hs probs (rng w)) as (sample & first & token & g' & Hm & Hf & Hi).
  exists token. unfold sample_item. rewrite !SE_bind_eq. unfold lift_rng.
  rewrite Hm. rewrite SE_bind_eq. unfold lift_result. rewrite Hf, Hi. eauto.
Qed.

(** *** The generation loop *)

(** What the loop appends to [generated_seqs] when it returns: at most one
    token per iteration, the end id only as last token, and the end id as
    last token whenever iterations are left over. *)
Lemma forward_loop_inv (self : Seq2Seq) (temperature : F) (iterations : list nat)
    (decoder_input : tensor Z) (decoder_hidden : hidden_state)
    (generated_seqs : list Z) (w w' : World) (out : list Z) :
  forward_loop self temperature iterations decoder_input decoder_hidden
    generated_seqs w = (Ok out, w') →
  ∃ new, out = generated_seqs ++ new
    ∧ length new ≤ length iterations
    ∧ (∀ i, new !! i = Some (eos_token_id self) → i + 1 = length new)
    ∧ (length new < length iterations → last new = Some (eos_token_id self))
    ∧ (iterations ≠ [] → new ≠ []).
Proof.
  revert decoder_input decoder_hidden generated_seqs w.
  induction iterations as [|it iterations IH];
    intros decoder_input decoder_hidden generated_seqs w; simpl.
  - intros [= <- <-]. exists []. rewrite app_nil_r. split_and!; try done.
    simpl. lia.
  - intros ([output hidden'] & w1 & _ & Hrest)%SE_bind_Ok.
    apply SE_bind_Ok in Hrest as (token & w2 & _ & Hrest).
    destruct (decide (token = eos_token_id self)) as [->|Hne].
    + injection Hrest as <- <-. exists [eos_token_id self].
      split_and!; try done; simpl; try lia.
      intros [|i]; [done|]. simpl. by rewrite lookup_nil.
    + apply IH in Hrest as (new & -> & Hlen & Hlast & Hearly & _).
      exists (token :: new). rewrite <- app_assoc. split_and!; try done.
      * simpl. lia.
      * intros [|i]; simpl; [congruence|]. intros ?%Hlast. lia.
      * simpl. intros Hlt. rewrite last_cons.
        rewrite Hearly by lia. done.
Qed.

Lemma forward_loop_total (self : Seq2Seq) (temperature : F) (iterations : list nat)
    (decoder_input : tensor Z) (decoder_hidden : hidden_state)
    (generated_seqs : list Z) (w : World) :
  decoder_total self → sampler_total →
  ∃ out w', forward_loop self temperature iterations decoder_input
              decoder_hidden generated_seqs w = (Ok out, w').
Proof.
  intros Hd Hs. revert decoder_input decoder_hidden generated_seqs w.
  induction iterations as [|it iterations IH];
    intros decoder_input decoder_hidden generated_seqs w; simpl.
  - by eexists _, _.
  - rewrite SE_bind_eq, call_decoder_eq.
    destruct (Hd decoder_input decoder_hidden (rng w)) as (output & h' & g' & ->).
    simpl. rewrite SE_bind_eq.
    match goal with |- context [sample_item ?p ?w1] =>
      destruct (sample_item_total p w1 Hs) as (token & w2 & ->) end.
    destruct (decide (token = eos_token_id self)); [by eexists _, _|].
    apply IH.
Qed.

Lemma length_range (n : Z) : length (range n) = Z.to_nat n.
Proof. unfold range. apply length_seq. Qed.

(** What the loop returns are the tokens drawn, in the order drawn. *)
Lemma forward_loop_sampled (self : Seq2Seq) (temperature : F)
    (iterations : list nat) (decoder_input : tensor Z)
    (decoder_hidden : hidden_state) (generated_seqs : list Z) (w w' : World)
    (out : list Z) :
  forward_loop self temperature iterations decoder_input decoder_hidden
    generated_seqs w = (Ok out, w') →
  ∃ new, out = generated_seqs ++ new
         ∧ sampled_run self temperature decoder_input decoder_hidden w new w'.
Proof.
  revert decoder_input decoder_hidden generated_seqs w.
  induction iterations as [|it iterations IH];
    intros decoder_input decoder_hidden generated_seqs w; simpl.
  - intros [= <- <-]. exists []. rewrite app_nil_r. split; [done|constructor].
  - intros ([output hidden'] & w1 & Hdec & Hrest)%SE_bind_Ok.
    apply SE_bind_Ok in Hrest as (token & w2 & Hsample & Hrest).
    destruct (decide (token = eos_token_id self)) as [Heq|Hne].
    + injection Hrest as <- <-. exists [token]. split; [done|].
      eapply sampled_cons; [done..|constructor].
    + apply IH in Hrest as (new & -> & Hrun).
      exists (token :: new). rewrite <- app_assoc. split; [done|].
      by eapply sampled_cons.
Qed.

(** Conversely, tokens drawn in a run that ends at the first end id, or
    at the last iteration, are what the loop returns. *)
Lemma sampled_forward_loop (self : Seq2Seq) (temperature : F)
    (iterations : list nat) (decoder_input : tensor Z)
    (decoder_hidden : hidden_state) (generated_seqs : list Z) (w w' : World)
    (new : list Z) :
  sampled_run self temperature decoder_input decoder_hidden w new w' →
  length new ≤ length iterations →
  (∀ i, new !! i = Some (eos_token_id self) → i + 1 = length new) →
  (length new < length iterations → last new = Some (eos_token_id self)) →
  forward_loop self temperature iterations decoder_input decoder_hidden
    generated_seqs w = (Ok (generated_seqs ++ new), w').
Proof.
  intros Hrun. revert iterations generated_seqs.
  induction Hrun as [di dh w|di dh w output dh' w1 token w2 tokens w' Hdec Hs Hrun IH];
    intros iterations generated_seqs Hlen Hlast Hearly.
  - destruct iterations as [|it iterations].
    + simpl. by rewrite app_nil_r.
    + simpl in Hearly. discriminate Hearly. lia.
  - destruct iterations as [|it iterations]; [simpl in Hlen; lia|].
    simpl. rewrite SE_bind_eq, Hdec. simpl. rewrite SE_bind_eq, Hs.
    destruct (decide (token = eos_token_id self)) as [->|Hne].
    + specialize (Hlast 0 eq_refl). simpl in Hlast.
      destruct tokens; [|simpl in Hlast; lia].
      by inversion Hrun.
    + replace (generated_seqs ++ token :: tokens)
        with ((generated_seqs ++ [token]) ++ tokens) by by rewrite <- app_assoc.
      apply IH.
      * simpl in Hlen. lia.
      * intros i Hi. specialize (Hlast (S i) Hi). simpl in Hlast. lia.
      * intros Hlt.
        assert (last (token :: tokens) = Some (eos_token_id self)) as Hl
          by (apply Hearly; simpl; lia).
        rewrite last_cons in Hl.
        destruct (last tokens) eqn:Hl'; [done|].
        apply last_None in Hl' as ->. congruence.
Qed.

(** An exception of the loop is the exception of a decoder call or of a
    draw. *)
Lemma forward_loop_raising (self : Seq2Seq) (temperature : F)
    (iterations : list nat) (decoder_input : tensor Z)
    (decoder_hidden : hidden_state) (generated_seqs : list Z) (w w' : World)
    (e : exn) :
  forward_loop self temperature iterations decoder_input decoder_hidden
    generated_seqs w = (Raise e, w') →
  raising_run self temperature decoder_input decoder_hidden w e w'.
Proof.
  revert decoder_input decoder_hidden generated_seqs w.
  induction iterations as [|it iterations IH];
    intros decoder_input decoder_hidden generated_seqs w; simpl; [done|].
  rewrite SE_bind_eq.
  destruct (call_decoder self decoder_input decoder_hidden w)
    as [[[output hidden']|e0] w1] eqn:Hdec.
  - rewrite SE_bind_eq.
    destruct (sample_item _ w1) as [[token|e0] w2] eqn:Hs.
    + destruct (decide (token = eos_token_id self)); [done|].
      intros Hrest%IH. by eapply raising_later.
    + intros [= <- <-]. by eapply raising_sample.
  - intros [= <- <-]. by apply raising_decoder.
Qed.

(** With sub-modules and a sampler that return on every argument, a run
    returns. *)
Lemma forward_total (self : Seq2Seq) (input_tokens : tensor Z)
    (max_output_len : Z) (temperature : F) (w : World) :
  encoder_total self → decoder_total self → sampler_total →
  ∃ out w',
    forward self input_tokens max_output_len temperature w = (Ok out, w').
Proof.
  intros He Hd Hs. unfold forward. rewrite SE_bind_eq, call_encoder_eq.
  destruct (He (unsqueeze0 input_tokens) (rng w)) as (hidden & g' & ->).
  simpl. by apply forward_loop_total.
Qed.

(** *** The training loop *)

Lemma forward_train_loop_unbound (self : Seq2Seq) (output_tokens : tensor Z)
    (token : nat) (tokens : list nat) (decoder_hidden : hidden_state)
    (output_list : list (tensor F)) (w : World) :
  forward_train_loop self output_tokens (token :: tokens) None decoder_hidden
    output_list w = (Raise (UnboundLocalError "decoder_inputs"), w).
Proof.
  simpl. rewrite SE_bind_eq. unfold lift_result, read_local. reflexivity.
Qed.

(** The outcome of [forward_train] after the encoder call: always an
    exception, and the world is left as the encoder call left it. *)
Lemma forward_train_after_encoder (self : Seq2Seq)
    (input_tokens output_tokens : tensor Z) (hidden : hidden_state) (w : World) :
  ∃ e,
    (first ← lift_result (getitem0 input_tokens);
     ones ← lift_result (ones_tensor_size first 1);
     n ← lift_result (shape_at hidden 1);
     output_list ← forward_train_loop self output_tokens
                     (range (Z.of_nat n - 1)) None hidden [];
     lift_result (cat_dim1 output_list)) w = (Raise e, w).
Proof.
  rewrite SE_bind_eq. unfold lift_result at 1.
  destruct (getitem0 input_tokens) as [first|e]; [|by exists e].
  rewrite SE_bind_eq. unfold lift_result at 1.
  destruct (ones_tensor_size first 1) as [ones|e]; [|by exists e].
  rewrite SE_bind_eq. unfold lift_result at 1.
  destruct (shape_at hidden 1) as [n|e]; [|by exists e].
  rewrite SE_bind_eq.
  destruct (range (Z.of_nat n - 1)) as [|token tokens].
  - simpl. by eexists.
  - rewrite forward_train_loop_unbound. by eexists.
Qed.

Lemma forward_train_eq (self : Seq2Seq) (input_tokens output_tokens : tensor Z)
    (w : World) :
  ∃ e,
    forward_train self input_tokens output_tokens w =
      (Raise e,
       {| rng := (encoder self input_tokens (rng w)).2;
          calls := calls w ++ [EncoderCall input_tokens] |}).
Proof.
  unfold forward_train. rewrite SE_bind_eq, call_encoder_eq.
  destruct (encoder self input_tokens (rng w)) as [[hidden|e] g]; simpl.
  - apply forward_train_after_encoder.
  - by exists e.
Qed.

End ModelFacts.
End ModelFacts.

Module ModelClaims.
Import Torch Model ModelFacts.

Section ModelClaims.
Context `{Framework}.

(** C7. [Encoder.forward] as written has the body [pass]: for every input
    batch it returns [None] and leaves the generator untouched, so it
    returns no hidden-state tensor, of shape (N_layers, B, hidden_dim) or
    of any other shape. *)
Theorem Encoder_forward_returns_None (X : tensor Z) (g : RNG) :
  Encoder_forward X g = (Ok None, g)
  ∧ ∀ sh, ¬ ∃ hidden, (Encoder_forward X g).1 = Ok (Some hidden)
                      ∧ shape hidden = sh.
Proof.
  split; [reflexivity|]. intros sh (hidden & Hret & _).
  unfold Encoder_forward in Hret. simpl in Hret. congruence.
Qed.

(** C8. [Decoder.forward] as written reads the local [output] before any
    assignment to it: for every input batch, hidden state and layer
    [self.fc] it raises [UnboundLocalError] and returns no pair of logits
    and hidden state. *)
Theorem Decoder_forward_raises (self_fc : tensor F → SE RNG (tensor F))
    (input_tokens : tensor Z) (hidden : hidden_state) (g : RNG) :
  Decoder_forward self_fc input_tokens hidden g
  = (Raise (UnboundLocalError "output"), g).
Proof.
  unfold Decoder_forward. rewrite SE_bind_eq.
  unfold lift_result, read_local. reflexivity.
Qed.

(** C1. [Seq2Seq.forward_train] as written raises on every pair of input
    and target batches, whatever the encoder, the decoder and the
    framework do: it returns no logits tensor, of shape
    (B, L-1, vocab_size) or of any other shape. *)
Theorem forward_train_raises (self : Seq2Seq)
    (input_tokens output_tokens : tensor Z) (w : World) :
  is_Raise (forward_train self input_tokens output_tokens w).1.
Proof.
  destruct (forward_train_eq self input_tokens output_tokens w) as [e ->]. done.
Qed.

(** C2. In [Seq2Seq.forward_train] as written the encoder is called once,
    on the input batch, and the decoder is never called: the run ends in
    an exception with the encoder call as the only recorded call, so no
    start-of-sequence batch and no ground-truth token reaches the
    decoder. *)
Theorem forward_train_never_calls_decoder (self : Seq2Seq)
    (input_tokens output_tokens : tensor Z) (w : World) :
  calls (forward_train self input_tokens output_tokens w).2
  = calls w ++ [EncoderCall input_tokens]
  ∧ is_Raise (forward_train self input_tokens output_tokens w).1
  ∧ ∀ tokens decoder_hidden output_list w1,
      tokens ≠ [] →
      forward_train_loop self output_tokens tokens None decoder_hidden
        output_list w1 = (Raise (UnboundLocalError "decoder_inputs"), w1).
Proof.
  destruct (forward_train_eq self input_tokens output_tokens w) as [e ->].
  split_and!; [done..|].
  intros [|token tokens] decoder_hidden output_list w1 Hne; [done|].
  apply forward_train_loop_unbound.
Qed.

(** C3, as amended.  With [max_output_len = M >= 1] and a start id
    within [torch.long], a run of [Seq2Seq.forward] returns a sequence
    exactly when the encoder call returns and the sequence is the list of
    the tokens drawn in successive decoding steps, of at least 1 and at
    most [M] tokens, that ends at the first end id drawn or with the
    [M]-th token.  It has fewer than [M] tokens if and only if the end id
    is drawn at one of the first [M-1] steps; wherever the end id is
    drawn, at step [M] too, it is the last token of the output.  A run
    that does not return raises the exception of its encoder call, of one
    of its decoder calls or of one of its draws. *)
Theorem forward_stops_at_eos_or_limit (self : Seq2Seq) (input_tokens : tensor Z)
    (max_output_len : Z) (temperature : F) (w : World) :
  (1 ≤ max_output_len)%Z →
  int64 (sos_token_id self) →
  (∀ out w',
     forward self input_tokens max_output_len temperature w = (Ok out, w')
     ↔ ∃ hidden w1,
         call_encoder self (unsqueeze0 input_tokens) w = (Ok hidden, w1)
         ∧ sampled_run self temperature (ones_1_1_times (sos_token_id self))
             hidden w1 out w'
         ∧ 1 ≤ length out
         ∧ (Z.of_nat (length out) ≤ max_output_len)%Z
         ∧ ((Z.of_nat (length out) < max_output_len)%Z
            ↔ ∃ i, (Z.of_nat i + 1 < max_output_len)%Z
                   ∧ out !! i = Some (eos_token_id self))
         ∧ (∀ i, out !! i = Some (eos_token_id self) → i + 1 = length out))
  ∧ (∀ e w',
       forward self input_tokens max_output_len temperature w = (Raise e, w') →
       call_encoder self (unsqueeze0 input_tokens) w = (Raise e, w')
       ∨ ∃ hidden w1,
           call_encoder self (unsqueeze0 input_tokens) w = (Ok hidden, w1)
           ∧ raising_run self temperature
               (ones_1_1_times (sos_token_id self)) hidden w1 e w').
Proof.
  intros HM _. split.
  - intros out w'. unfold forward. split.
    + intros (hidden & w1 & Henc & Hloop)%SE_bind_Ok.
      exists hidden, w1. split; [done|].
      pose proof Hloop as (new & Hout & Hrun)%forward_loop_sampled.
      apply forward_loop_inv in Hloop as (new' & -> & Hlen & Hlast & Hearly & Hne).
      simpl in Hout. subst new. simpl in *.
      rewrite length_range in Hlen, Hearly.
      assert (new' ≠ []) as Hnew.
      { apply Hne. intros Hr%(f_equal length). rewrite length_range in Hr.
        simpl in Hr. lia. }
      split_and!; [done| |lia| |done].
      * destruct new'; [done|simpl; lia].
      * split.
        -- intros Hlt. exists (length new' - 1). split.
           ++ destruct new'; [done|simpl in *; lia].
           ++ replace (length new' - 1) with (pred (length new')) by lia.
              rewrite <- last_lookup. apply Hearly. lia.
        -- intros (i & Hi & Heos%Hlast). lia.
    + intros (hidden & w1 & Henc & Hrun & Hpos & Hlen & Hiff & Hlast).
      rewrite SE_bind_eq, Henc.
      apply (sampled_forward_loop _ _ _ _ _ [] _ _ _ Hrun).
      * rewrite length_range. lia.
      * done.
      * rewrite length_range. intros Hlt.
        destruct (proj1 Hiff) as (i & _ & Hi); [lia|].
        pose proof (Hlast i Hi).
        rewrite last_lookup. by replace (pred (length out)) with i by lia.
  - intros e w'. unfold forward. rewrite SE_bind_eq.
    destruct (call_encoder self (unsqueeze0 input_tokens) w)
      as [[hidden|e0] w1] eqn:Henc.
    + intros Hloop%forward_loop_raising. right. by exists hidden, w1.
    + intros [= <- <-]. by left.
Qed.

(** C9. In every sequence returned by [Seq2Seq.forward] the end id can
    only be the last element: no element before the final position is
    the end id, and the end id occurs at most once. *)
Theorem forward_eos_only_last (self : Seq2Seq) (input_tokens : tensor Z)
    (max_output_len : Z) (temperature : F) (w : World) (out : list Z) :
  (forward self input_tokens max_output_len temperature w).1 = Ok out →
  (∀ i, out !! i = Some (eos_token_id self) → i + 1 = length out)
  ∧ (∀ i, i + 1 < length out → out !! i ≠ Some (eos_token_id self))
  ∧ length (filter (λ token, token = eos_token_id self) out) ≤ 1.
Proof.
  intros Hrun.
  destruct (forward self input_tokens max_output_len temperature w)
    as [r w'] eqn:Hfw. simpl in Hrun. subst r.
  unfold forward in Hfw. apply SE_bind_Ok in Hfw as (hidden & w1 & _ & Hloop).
  apply forward_loop_inv in Hloop as (new & -> & _ & Hlast & _). simpl.
  split_and!; [done| |].
  - intros i Hi Heos%Hlast. lia.
  - clear -Hlast. induction new as [|token new IH]; simpl; [lia|].
    destruct (decide (token = eos_token_id self)) as [->|Hne].
    + rewrite filter_cons_True by done.
      specialize (Hlast 0 eq_refl). destruct new; [simpl; lia|done].
    + rewrite filter_cons_False by done. apply IH.
      intros i Hi. specialize (Hlast (S i) Hi). simpl in Hlast. lia.
Qed.


End ModelClaims.
End ModelClaims.

(** ** The claims at concrete inputs *)

Module TokenizerExamples.
Import Tokenizer TokenizerFacts.

(** *** Tokenizer: the corpus ["cab"; "abc"] *)

Lemma abc_listing : set_listing (join ["cab"; "abc"]) ["c"; "a"; "b"].
Proof.
  split.
  - apply (bool_decide_unpack _). by vm_compute.
  - intros x. change (join ["cab"; "abc"]) with "cababc". simpl.
    rewrite !elem_of_cons, !elem_of_nil. tauto.
Defined.

Lemma abc_listing_other_order :
  set_listing (join ["cab"; "abc"]) ["b"; "c"; "a"].
Proof.
  split.
  - apply (bool_decide_unpack _). by vm_compute.
  - intros x. change (join ["cab"; "abc"]) with "cababc". simpl.
    rewrite !elem_of_cons, !elem_of_nil. tauto.
Defined.

Lemma abca_over_alphabet :
  ∀ x, x ∈ chars "abca" → x ∈ chars (join ["cab"; "abc"]).
Proof.
  intros x. change (join ["cab"; "abc"]) with "cababc". simpl.
  rewrite !elem_of_cons, !elem_of_nil. tauto.
Defined.

Example build_tokenizer_abc :
  (v ← build_tokenizer ["cab"; "abc"];
   Ok (itos v !! 0, itos v !! 1, itos v !! 2, itos v !! 3, itos v !! 4,
       itos v !! 5, itos v !! 6,
       sos_token_id v, eos_token_id v, unk_token_id v))
  = Ok (Some "a", Some "b", Some "c", Some "<sos>", Some "<eos>",
        Some "<unk>", None, 3, 4, 5).
Proof. by vm_compute. Qed.

Example tokenize_abca :
  (v ← build_tokenizer ["cab"; "abc"]; tokenize ["abca"; "cb"] v)
  = Ok [[3; 0; 1; 2; 0; 4]; [3; 2; 1; 4]].
Proof. by vm_compute. Qed.

Example detokenize_abca :
  (v ← build_tokenizer ["cab"; "abc"]; detokenize v [3; 0; 1; 2; 0; 4])
  = Ok "<sos>abca<eos>".
Proof. by vm_compute. Qed.

Example tokenize_unseen_x :
  (v ← build_tokenizer ["cab"; "abc"]; tokenize ["ab"; "axb"] v)
  = Raise (KeyError (StrKey "x")).
Proof. by vm_compute. Qed.

(** *** Tokenizer claims at the corpus ["cab"; "abc"] *)

(** C6 at two listings of the character set of the corpus. *)
Lemma build_tokenizer_deterministic_layout_witness :
  build_tokenizer_from ["c"; "a"; "b"] = build_tokenizer_from ["b"; "c"; "a"]
  ∧ ∃ (v : Vocab) (alphabet : list string),
      build_tokenizer_from ["c"; "a"; "b"] = Ok v
      ∧ build_tokenizer ["cab"; "abc"] = Ok v
      ∧ (∀ x, x ∈ alphabet ↔ x ∈ chars (join ["cab"; "abc"]))
      ∧ StronglySorted (strict String.le) alphabet
      ∧ (∀ i j a b, i < j →
           alphabet !! i = Some (String a "") →
           alphabet !! j = Some (String b "") →
           (N_of_ascii a < N_of_ascii b)%N)
      ∧ (∀ i, itos v !! i = (alphabet ++ ["<sos>"; "<eos>"; "<unk>"]) !! i)
      ∧ (∀ i, is_Some (itos v !! i) ↔ i < length alphabet + 3)
      ∧ (∀ t i, stoi v !! t = Some i ↔ itos v !! i = Some t)
      ∧ sos_token_id v = length alphabet
      ∧ eos_token_id v = length alphabet + 1
      ∧ unk_token_id v = length alphabet + 2
      ∧ sos_token_id v ≠ eos_token_id v
      ∧ sos_token_id v ≠ unk_token_id v
      ∧ eos_token_id v ≠ unk_token_id v.
Proof.
  exact (TokenizerClaims.build_tokenizer_deterministic_layout
           ["cab"; "abc"] ["c"; "a"; "b"] ["b"; "c"; "a"]
           abc_listing abc_listing_other_order).
Defined.

(** C4 at the string ["abca"]. *)
Lemma tokenizer_round_trip_witness :
  ∃ (v : Vocab) (ids : list nat),
    build_tokenizer_from ["c"; "a"; "b"] = Ok v
    ∧ tokenize ["abca"] v = Ok [sos_token_id v :: ids ++ [eos_token_id v]]
    ∧ detokenize v (sos_token_id v :: ids ++ [eos_token_id v])
      = Ok ("<sos>" +:+ "abca" +:+ "<eos>")
    ∧ filter (λ i, i ≠ sos_token_id v ∧ i ≠ eos_token_id v)
        (sos_token_id v :: ids ++ [eos_token_id v]) = ids
    ∧ detokenize v ids = Ok "abca".
Proof.
  exact (TokenizerClaims.tokenizer_round_trip
           ["cab"; "abc"] ["c"; "a"; "b"] "abca" abc_listing abca_over_alphabet).
Defined.

(** C5 at the sentences ["ab"; "axb"], the second of which holds the
    unseen character ["x"]. *)
Lemma tokenize_unseen_character_raises_witness :
  ∃ v : Vocab,
    build_tokenizer_from ["c"; "a"; "b"] = Ok v
    ∧ (∃ s x, s ∈ ["ab"; "axb"] ∧ x ∈ chars s
              ∧ (x ∉ chars (join ["cab"; "abc"]))
              ∧ tokenize ["ab"; "axb"] v = Raise (KeyError (StrKey x)))
    ∧ stoi v !! "<unk>" = Some (unk_token_id v)
    ∧ itos v !! unk_token_id v = Some "<unk>"
    ∧ (∀ seqs seq, tokenize ["ab"; "axb"] v = Ok seqs →
         seq ∈ seqs → unk_token_id v ∉ seq).
Proof.
  destruct (TokenizerClaims.tokenize_unseen_character_raises
              ["cab"; "abc"] ["c"; "a"; "b"] ["ab"; "axb"] abc_listing)
    as (v & Hv & Hraise & Hstoi & Hitos & Hnever).
  exists v. split_and!; [done| |done..].
  apply Hraise. exists "axb", "x". split_and!.
  - right. left.
  - simpl. right. left.
  - change (join ["cab"; "abc"]) with "cababc". simpl.
    rewrite !elem_of_cons, !elem_of_nil. intros Hx.
    repeat (destruct Hx as [Hx|Hx]; [discriminate Hx|]). done.
Defined.

End TokenizerExamples.

Module ModelExamples.
Import Torch Model Toy.

(** *** Seq2Seq claims at the toy model *)

Lemma toy_encoder_total : encoder_total toy_model.
Proof. intros X g. by eexists _, _. Qed.

Lemma toy_decoder_total : decoder_total toy_model.
Proof. intros input_tokens hidden g. by eexists _, _, _. Qed.

Lemma toy_sampler_total : sampler_total.
Proof. intros probs [|token g]; by eexists _, _, _, _. Qed.

Example forward_toy_eos_at_step_4 :
  (forward toy_model (Tensor [2] [0; 1]%Z) 5 1%Z
     (toy_world [0; 1; 0; 2; 1; 1]%Z)).1 = Ok [0; 1; 0; 2]%Z.
Proof. by vm_compute. Qed.

Example forward_toy_limit_reached :
  (forward toy_model (Tensor [2] [0; 1]%Z) 3 1%Z
     (toy_world [0; 1; 0; 2; 1; 1]%Z)).1 = Ok [0; 1; 0]%Z.
Proof. by vm_compute. Qed.

(** C3 as stated fails when the end id is sampled at the last permitted
    step: with [max_output_len = 1] and the end id drawn first, the end id
    is sampled, yet the output [[2]] has [max_output_len] tokens, not
    fewer. *)
Lemma forward_eos_at_limit_counterexample :
  ∃ out,
    (forward toy_model (Tensor [2] [0; 1]%Z) 1 1%Z (toy_world [2]%Z)).1 = Ok out
    ∧ ¬ ((Z.of_nat (length out) < 1)%Z ↔ eos_token_id toy_model ∈ out).
Proof.
  exists [2%Z]. split; [by vm_compute|].
  intros [_ Hr]. assert (Z.of_nat (length [2%Z]) < 1)%Z as Hlt.
  { apply Hr. by left. }
  simpl in Hlt. lia.
Qed.

(** C3, as amended, at the toy model. *)
Lemma forward_stops_at_eos_or_limit_witness :
  (∀ out w',
     forward toy_model (Tensor [2] [0; 1]%Z) 5 1%Z
       (toy_world [0; 1; 0; 2; 1; 1]%Z) = (Ok out, w')
     ↔ ∃ hidden w1,
         call_encoder toy_model (unsqueeze0 (Tensor [2] [0; 1]%Z))
           (toy_world [0; 1; 0; 2; 1; 1]%Z) = (Ok hidden, w1)
         ∧ sampled_run toy_model 1%Z (ones_1_1_times (sos_token_id toy_model))
             hidden w1 out w'
         ∧ 1 ≤ length out
         ∧ (Z.of_nat (length out) ≤ 5)%Z
         ∧ ((Z.of_nat (length out) < 5)%Z
            ↔ ∃ i, (Z.of_nat i + 1 < 5)%Z
                   ∧ out !! i = Some (eos_token_id toy_model))
         ∧ (∀ i, out !! i = Some (eos_token_id toy_model) →
                 i + 1 = length out))
  ∧ (∀ e w',
       forward toy_model (Tensor [2] [0; 1]%Z) 5 1%Z
         (toy_world [0; 1; 0; 2; 1; 1]%Z) = (Raise e, w') →
       call_encoder toy_model (unsqueeze0 (Tensor [2] [0; 1]%Z))
         (toy_world [0; 1; 0; 2; 1; 1]%Z) = (Raise e, w')
       ∨ ∃ hidden w1,
           call_encoder toy_model (unsqueeze0 (Tensor [2] [0; 1]%Z))
             (toy_world [0; 1; 0; 2; 1; 1]%Z) = (Ok hidden, w1)
           ∧ raising_run toy_model 1%Z
               (ones_1_1_times (sos_token_id toy_model)) hidden w1 e w').
Proof.
  apply ModelClaims.forward_stops_at_eos_or_limit.
  - lia.
  - unfold int64. simpl. lia.
Defined.

(** C9 at the toy model. *)
Lemma forward_eos_only_last_witness :
  (∀ i, [0; 1; 0; 2]%Z !! i = Some (eos_token_id toy_model) →
        i + 1 = length [0; 1; 0; 2]%Z)
  ∧ (∀ i, i + 1 < length [0; 1; 0; 2]%Z →
          [0; 1; 0; 2]%Z !! i ≠ Some (eos_token_id toy_model))
  ∧ length (filter (λ token, token = eos_token_id toy_model) [0; 1; 0; 2]%Z) ≤ 1.
Proof.
  apply (ModelClaims.forward_eos_only_last toy_model (Tensor [2] [0; 1]%Z) 5
           1%Z (toy_world [0; 1; 0; 2; 1; 1]%Z)).
  by vm_compute.
Defined.


(** [forward_train] on a batch of two target sequences of length 3. *)
Example forward_train_toy_2x3 :
  is_Raise (forward_train toy_model (Tensor [2; 3] [3; 0; 4; 3; 1; 4]%Z)
              (Tensor [2; 3] [3; 1; 4; 3; 0; 4]%Z) (toy_world [])).1.
Proof. by vm_compute. Qed.

(** With a batch of sequences of length 1 the toy [torch.ones] accepts its
    size, and the first loop iteration finds [decoder_inputs] unbound. *)
Example forward_train_toy_2x1 :
  forward_train toy_model (Tensor [2; 1] [3; 3]%Z) (Tensor [2; 1] [3; 3]%Z)
    (toy_world [])
  = (Raise (UnboundLocalError "decoder_inputs"),
     {| rng := []; calls := [EncoderCall (Tensor [2; 1] [3; 3]%Z)] |}).
Proof. by vm_compute. Qed.

End ModelExamples.

(** * Further properties *)

(** ** Tokenizer *)

Module TokenizerMoreFacts.
Import Tokenizer TokenizerFacts.

Lemma chars_app (s1 s2 : string) : chars (s1 +:+ s2) = chars s1 ++ chars s2.
Proof.
  induction s1 as [|c s1 IH]; [done|].
  change (chars (String c (s1 +:+ s2)) = chars (String c s1) ++ chars s2).
  simpl. by rewrite IH.
Qed.

Lemma string_app_empty_r (s : string) : s +:+ "" = s.
Proof.
  induction s as [|c s IH]; [done|].
  change (String c (s +:+ "") = String c s). by rewrite IH.
Qed.

Lemma chars_length (s : string) : length (chars s) = String.length s.
Proof. induction s as [|c s IH]; simpl; [done|]. by rewrite IH. Qed.

Lemma chars_join_elem_of (sents : list string) (s x : string) :
  s ∈ sents → x ∈ chars s → x ∈ chars (join sents).
Proof.
  induction sents as [|s' sents IH]; [by intros ?%elem_of_nil|].
  simpl. rewrite chars_app, elem_of_app.
  intros [->|Hs]%elem_of_cons Hx; [by left|]. right. by apply IH.
Qed.

Lemma chars_inj (s1 s2 : string) : chars s1 = chars s2 → s1 = s2.
Proof. intros Heq. by rewrite <- (join_chars s1), <- (join_chars s2), Heq. Qed.

(** A list of one-character strings is the [chars] of its join. *)
Lemma chars_join_singletons (joined : string) (ts : list string) :
  (∀ x, x ∈ ts → x ∈ chars joined) → chars (join ts) = ts.
Proof.
  induction ts as [|t ts IH]; intros Hts; [done|].
  simpl. rewrite chars_app, IH by (intros x Hx; apply Hts; by right).
  assert (t ∈ chars joined) as Ht by (apply Hts; by left).
  f_equal. clear -Ht. induction joined as [|c joined IHj]; simpl in Ht.
  - by apply elem_of_nil in Ht.
  - apply elem_of_cons in Ht as [->|Ht]; [done|auto].
Qed.

Lemma dict_enumerate_size {A} (l : list A) : size (dict (enumerate l)) = length l.
Proof.
  induction l as [|x l IH] using rev_ind; [done|].
  rewrite enumerate_snoc, dict_snoc, map_size_insert_None.
  - rewrite IH, length_app. simpl. lia.
  - rewrite dict_enumerate_lookup. apply lookup_ge_None_2. lia.
Qed.

Lemma dict_inverse_size (l : list string) :
  NoDup l →
  size (dict ((λ it : nat * string, (it.2, it.1)) <$> enumerate l)) = length l.
Proof.
  induction l as [|x l IH] using rev_ind; intros Hnd; [done|].
  pose proof Hnd as Hnd'. apply NoDup_app in Hnd' as (Hl & Hfresh & _).
  rewrite enumerate_snoc, fmap_app. simpl. rewrite dict_snoc.
  rewrite map_size_insert_None.
  - rewrite IH by done. rewrite length_app. simpl. lia.
  - apply eq_None_not_Some. intros [i Hi].
    apply (dict_inverse_lookup _ _ _ Hl) in Hi.
    apply (Hfresh x); [by eapply list_elem_of_lookup_2|]. by left.
Qed.

(** [len(vocab["stoi"])] and [len(vocab["itos"])]. *)
Lemma vocab_sizes (joined : string) (listing : list string) (v : Vocab) :
  set_listing joined listing →
  build_tokenizer_from listing = Ok v →
  size (stoi v) = length listing + 3 ∧ size (itos v) = length listing + 3
  ∧ sos_token_id v = length listing.
Proof.
  intros Hl Hv. rewrite (build_tokenizer_from_eq _ _ Hl) in Hv.
  injection Hv as <-. simpl.
  rewrite dict_enumerate_size, (dict_inverse_size _ (vocab_list_NoDup _ _ Hl)).
  rewrite length_app, (Permutation_length (sorted_Permutation listing)).
  simpl. done.
Qed.

Lemma stoi_inj (joined : string) (listing : list string) (v : Vocab) x y i :
  set_listing joined listing →
  build_tokenizer_from listing = Ok v →
  stoi v !! x = Some i → stoi v !! y = Some i → x = y.
Proof.
  intros Hl Hv Hx Hy.
  destruct (vocab_layout _ _ Hl) as (v' & Hv' & _ & Hinv & _).
  assert (v' = v) as -> by congruence.
  apply Hinv in Hx, Hy. congruence.
Qed.

(** The ids below the start id are the ids of the characters. *)
Lemma itos_char (joined : string) (listing : list string) (v : Vocab) i :
  set_listing joined listing →
  build_tokenizer_from listing = Ok v →
  i < sos_token_id v →
  ∃ x, itos v !! i = Some x ∧ stoi v !! x = Some i ∧ x ∈ chars joined.
Proof.
  intros Hl Hv Hi.
  destruct (vocab_layout _ _ Hl) as (v' & Hv' & Hitos & Hinv & Hsos & _).
  assert (v' = v) as -> by congruence.
  rewrite Hsos in Hi. destruct (lookup_lt_is_Some_2 _ _ Hi) as [x Hx].
  exists x. split_and!.
  - by rewrite Hitos, lookup_app_l.
  - apply Hinv. by rewrite Hitos, lookup_app_l.
  - apply Hl, sorted_elem_of. by eapply list_elem_of_lookup_2.
Qed.

Lemma tokenized_length (v : Vocab) (s : string) (seq : list nat) :
  tokenized v s seq →
  length seq = String.length s + 2
  ∧ head seq = Some (sos_token_id v) ∧ last seq = Some (eos_token_id v).
Proof.
  intros (ids & -> & Hids). apply Forall2_length in Hids.
  rewrite chars_length in Hids. split_and!.
  - simpl. rewrite length_app. simpl. lia.
  - done.
  - by rewrite last_cons, last_snoc.
Qed.

(** One sentence over the characters of the corpus. *)
Lemma tokenize_one (joined : string) (listing : list string) (v : Vocab)
    (s : string) :
  set_listing joined listing →
  build_tokenizer_from listing = Ok v →
  (∀ x, x ∈ chars s → x ∈ chars joined) →
  ∃ ids, tokenize [s] v = Ok [sos_token_id v :: ids ++ [eos_token_id v]]
         ∧ length ids = String.length s
         ∧ itos_all v ids = Ok (chars s)
         ∧ Forall (λ i, i < sos_token_id v) ids.
Proof.
  intros Hl Hv Hsub. unfold tokenize.
  destruct (tokenize_sents_cases v [s] [])
    as [(seqs & Htok & Hseqs)|(s' & x & _ & Hs' & Hx & Hnone)].
  - apply Forall2_cons_inv_l in Hseqs
      as (seq & seqs' & (ids & -> & Hids) & Hnil & ->).
    apply Forall2_nil_inv_l in Hnil as ->.
    destruct (itos_all_stoi _ _ _ _ _ Hl Hv Hsub Hids) as [Hall Hlt].
    exists ids. split_and!; [done| |done..].
    apply Forall2_length in Hids. by rewrite <- Hids, chars_length.
  - exfalso. apply list_elem_of_singleton in Hs' as ->.
    destruct (stoi_char _ _ _ x Hl Hv (Hsub _ Hx)) as (i & Hi & _). congruence.
Qed.

End TokenizerMoreFacts.

Module TokenizerExtras.
Import Tokenizer TokenizerFacts TokenizerMoreFacts.

(** X2. [tokenize] returns exactly when every character of every sentence
    occurs in the corpus of the vocabulary.  What it returns has one
    sequence per sentence, in the order of the sentences; the sequence of
    a sentence [s] has [len(s) + 2] ids, begins with the start id and ends
    with the end id. *)
Theorem tokenize_returns_iff_characters_seen
    (sents : list string) (listing : list string) (targets : list string) :
  set_listing (join sents) listing →
  ∃ v : Vocab,
    build_tokenizer_from listing = Ok v
    ∧ ((∃ seqs, tokenize targets v = Ok seqs)
       ↔ (∀ s x, s ∈ targets → x ∈ chars s → x ∈ chars (join sents)))
    ∧ (∀ seqs, tokenize targets v = Ok seqs →
         length seqs = length targets
         ∧ ∀ i s seq, targets !! i = Some s → seqs !! i = Some seq →
             length seq = String.length s + 2
             ∧ head seq = Some (sos_token_id v)
             ∧ last seq = Some (eos_token_id v)).
Proof.
  intros Hl. destruct (vocab_layout _ _ Hl) as (v & Hv & _).
  exists v. split; [done|]. unfold tokenize.
  destruct (tokenize_sents_cases v targets [])
    as [(seqs & Htok & Hseqs)|(s & x & Htok & Hs & Hx & Hnone)].
  - rewrite Htok. simpl. split.
    + split; [|by eauto]. intros _ s x Hs Hx.
      apply list_elem_of_lookup_1 in Hs as [n Hn].
      destruct (Forall2_lookup_l _ _ _ _ _ Hseqs Hn) as (seq & _ & ids & _ & Hids).
      apply list_elem_of_lookup_1 in Hx as [m Hm].
      destruct (Forall2_lookup_l _ _ _ _ _ Hids Hm) as (i & _ & Hi).
      destruct (decide (x ∈ chars (join sents))) as [|Hnx]; [done|].
      rewrite (stoi_not_char _ _ _ s x Hl Hv) in Hi; [done| |done].
      by eapply list_elem_of_lookup_2.
    + intros seqs' [= <-]. split; [symmetry; by eapply Forall2_length|].
      intros i s seq Hi Hseq.
      apply (tokenized_length v). by eapply Forall2_lookup_lr.
  - rewrite Htok. split; [|done]. split; [by intros [? ?]|].
    intros Hall. exfalso.
    destruct (stoi_char _ _ _ x Hl Hv (Hall _ _ Hs Hx)) as (i & Hi & _).
    congruence.
Qed.

(** X3. Every id [tokenize] returns is a valid index for a table of
    [len(vocab["stoi"])] rows: [stoi] and [itos] both have as many entries
    as the corpus has distinct characters, plus three. *)
Theorem tokenize_ids_below_vocabulary_size
    (sents : list string) (listing : list string) (targets : list string) :
  set_listing (join sents) listing →
  ∃ v : Vocab,
    build_tokenizer_from listing = Ok v
    ∧ size (stoi v) = length listing + 3
    ∧ size (itos v) = length listing + 3
    ∧ (∀ seqs seq i, tokenize targets v = Ok seqs →
         seq ∈ seqs → i ∈ seq → i < size (stoi v) ∧ is_Some (itos v !! i)).
Proof.
  intros Hl.
  destruct (vocab_layout _ _ Hl) as (v & Hv & Hitos & Hinv & Hsos & Heos & Hunk).
  destruct (vocab_sizes _ _ _ Hl Hv) as (Hstoi & Hsize & Hk).
  exists v. split_and!; [done..|].
  intros seqs seq i Htok Hseq Hi. unfold tokenize in Htok.
  assert (i < length listing + 3) as Hlt.
  { destruct (tokenize_sents_cases v targets [])
      as [(seqs' & Htok' & Hseqs)|(s & x & Htok' & _)]; [|congruence].
    rewrite Htok' in Htok. injection Htok as <-. simpl in Hseq.
    apply list_elem_of_lookup_1 in Hseq as [n Hn].
    destruct (Forall2_lookup_r _ _ _ _ _ Hseqs Hn) as (s & _ & ids & -> & Hids).
    rewrite elem_of_cons, elem_of_app, list_elem_of_singleton in Hi.
    destruct Hi as [->|[Hin| ->]]; [lia| |lia].
    apply list_elem_of_lookup_1 in Hin as [m Hm].
    destruct (Forall2_lookup_r _ _ _ _ _ Hids Hm) as (x & Hx & Hxi).
    apply list_elem_of_lookup_2 in Hx.
    pose proof (stoi_range _ _ _ x _ Hl Hv (reserved_not_char _ _ Hx) Hxi).
    lia. }
  split; [lia|]. rewrite Hitos. apply lookup_lt_is_Some.
  rewrite length_app, (Permutation_length (sorted_Permutation listing)).
  simpl. lia.
Qed.

(** X4. The vocabulary depends only on the set of characters of the corpus:
    two corpora with the same characters, however they are split into
    sentences, ordered or repeated, get the same vocabulary. *)
Theorem build_tokenizer_depends_on_character_set
    (sents1 sents2 : list string) (listing1 listing2 : list string) :
  set_listing (join sents1) listing1 →
  set_listing (join sents2) listing2 →
  (∀ x, x ∈ chars (join sents1) ↔ x ∈ chars (join sents2)) →
  build_tokenizer_from listing1 = build_tokenizer_from listing2
  ∧ build_tokenizer sents1 = build_tokenizer sents2.
Proof.
  intros Hl1 Hl2 Hsame.
  assert (Hl2' : set_listing (join sents1) listing2).
  { destruct Hl2 as [Hnd Hin]. split; [done|]. intros x. by rewrite Hin, Hsame. }
  assert (He2 : set_listing (join sents1)
                  (elements (list_to_set (chars (join sents2)) : gset string))).
  { destruct (elements_set_listing (join sents2)) as [Hnd Hin].
    split; [done|]. intros x. by rewrite Hin, Hsame. }
  split.
  - rewrite (build_tokenizer_from_eq _ _ Hl1), (build_tokenizer_from_eq _ _ Hl2').
    simpl. by rewrite (sorted_listing_unique _ _ _ Hl1 Hl2').
  - unfold build_tokenizer.
    rewrite (build_tokenizer_from_eq _ _ (elements_set_listing (join sents1))).
    rewrite (build_tokenizer_from_eq _ _ He2). simpl.
    by rewrite (sorted_listing_unique _ _ _
                  (elements_set_listing (join sents1)) He2).
Qed.

(** X5. Tokenizing a corpus with the vocabulary built from it, as the
    notebook does, never raises: each sentence [s] of the corpus gets a
    sequence of [len(s) + 2] ids. *)
Theorem tokenize_own_corpus_returns
    (sents : list string) (listing : list string) :
  set_listing (join sents) listing →
  ∃ (v : Vocab) (seqs : list (list nat)),
    build_tokenizer_from listing = Ok v
    ∧ tokenize sents v = Ok seqs
    ∧ Forall2 (λ s seq, length seq = String.length s + 2) sents seqs.
Proof.
  intros Hl. destruct (vocab_layout _ _ Hl) as (v & Hv & _).
  unfold tokenize.
  destruct (tokenize_sents_cases v sents [])
    as [(seqs & Htok & Hseqs)|(s & x & Htok & Hs & Hx & Hnone)].
  - exists v, seqs. split_and!; [done..|].
    eapply Forall2_impl; [exact Hseqs|].
    intros s seq Hseq. by apply (tokenized_length v).
  - exfalso.
    destruct (stoi_char _ _ _ x Hl Hv (chars_join_elem_of _ _ _ Hs Hx))
      as (i & Hi & _).
    congruence.
Qed.

(** X6. [tokenize] is injective: two lists of sentences with the same
    tokenization are the same list. *)
Theorem tokenize_injective
    (sents : list string) (listing : list string)
    (targets1 targets2 : list string) (v : Vocab) (seqs : list (list nat)) :
  set_listing (join sents) listing →
  build_tokenizer_from listing = Ok v →
  tokenize targets1 v = Ok seqs →
  tokenize targets2 v = Ok seqs →
  targets1 = targets2.
Proof.
  intros Hl Hv. unfold tokenize. intros H1 H2.
  destruct (tokenize_sents_cases v targets1 [])
    as [(seqs1 & Htok1 & Hseqs1)|(? & ? & Htok1 & _)]; [|congruence].
  destruct (tokenize_sents_cases v targets2 [])
    as [(seqs2 & Htok2 & Hseqs2)|(? & ? & Htok2 & _)]; [|congruence].
  assert (seqs1 = seqs) as -> by (simpl in *; congruence).
  assert (seqs2 = seqs) as -> by (simpl in *; congruence).
  clear H1 H2 Htok1 Htok2. revert targets2 Hseqs2.
  induction Hseqs1 as [|s1 seq targets1 seqs (ids1 & Hseq1 & Hids1) _ IH];
    intros targets2 Hseqs2.
  - by apply Forall2_nil_inv_r in Hseqs2.
  - apply Forall2_cons_inv_r in Hseqs2
      as (s2 & targets2' & (ids2 & Hseq2 & Hids2) & Hrest & ->).
    f_equal; [|by apply IH].
    assert (ids1 = ids2) as <-.
    { rewrite Hseq1 in Hseq2. injection Hseq2 as Heq.
      by apply app_inv_tail in Heq. }
    apply chars_inj. clear -Hl Hv Hids1 Hids2.
    revert Hids2. generalize (chars s2).
    induction Hids1 as [|x i l1 ids1 Hx _ IH]; intros l2 Hids2.
    + by apply Forall2_nil_inv_r in Hids2.
    + apply Forall2_cons_inv_r in Hids2 as (y & l2' & Hy & Hrest & ->).
      f_equal; [by eapply stoi_inj|by apply IH].
Qed.

(** X8. Decoding then encoding: a list of character ids (ids below the start
    id) is joined to a string with one character per id, and tokenizing
    that string gives the ids back between the start id and the end id. *)
Theorem detokenize_then_tokenize
    (sents : list string) (listing : list string) (v : Vocab) (ids : list nat) :
  set_listing (join sents) listing →
  build_tokenizer_from listing = Ok v →
  Forall (λ i, i < sos_token_id v) ids →
  ∃ s, detokenize v ids = Ok s
       ∧ String.length s = length ids
       ∧ tokenize [s] v = Ok [sos_token_id v :: ids ++ [eos_token_id v]].
Proof.
  intros Hl Hv Hids.
  assert (∃ ts, Forall2 (λ i t, itos v !! i = Some t ∧ stoi v !! t = Some i
                               ∧ t ∈ chars (join sents)) ids ts)
    as [ts Hts].
  { induction Hids as [|i ids Hi _ [ts IH]]; [by exists []|].
    destruct (itos_char _ _ _ i Hl Hv Hi) as (x & ? & ? & ?).
    exists (x :: ts). by constructor. }
  assert (Hsub : ∀ x, x ∈ ts → x ∈ chars (join sents)).
  { intros x [n Hn]%list_elem_of_lookup_1.
    by destruct (Forall2_lookup_r _ _ _ _ _ Hts Hn) as (i & _ & _ & _ & ?). }
  assert (Hall : itos_all v ids = Ok ts).
  { clear Hsub Hids. induction Hts as [|i t ids ts (Hi & _) _ IH]; [done|].
    simpl. unfold getitem_int. rewrite Hi. simpl. by rewrite IH. }
  pose proof (chars_join_singletons _ _ Hsub) as Hchars.
  exists (join ts). unfold detokenize. rewrite Hall. simpl.
  split_and!; [done| |].
  - rewrite <- chars_length, Hchars. symmetry. by eapply Forall2_length.
  - destruct (tokenize_one _ _ _ (join ts) Hl Hv) as (ids' & Htok & _ & Hall' & _).
    { by rewrite Hchars. }
    rewrite Htok. do 3 f_equal. f_equal.
    rewrite Hchars in Hall'. clear -Hts Hall' Hl Hv.
    revert ids' Hall'. induction Hts as [|i t ids ts (Hi & Hst & _) _ IH];
      intros ids' Hall'.
    + destruct ids' as [|i' ids']; [done|]. simpl in Hall'.
      destruct (getitem_int (itos v) i'); simpl in Hall'; [|done].
      by destruct (itos_all v ids').
    + destruct ids' as [|i' ids']; [done|]. simpl in Hall'.
      unfold getitem_int in Hall'.
      destruct (itos v !! i') as [t'|] eqn:Hi'; simpl in Hall'; [|done].
      destruct (itos_all v ids') as [ts'|] eqn:Hrest; simpl in Hall'; [|done].
      injection Hall' as -> ->.
      destruct (vocab_layout _ _ Hl) as (v' & Hv' & _ & Hinv & _).
      assert (v' = v) as -> by congruence.
      apply Hinv in Hi'. f_equal; [congruence|by apply IH].
Qed.

(** X9. The joined text does not tell a reserved symbol from its spelling:
    when the characters of ["<sos>"] occur in the corpus, the one-element
    list holding the start id and the five character ids of the string
    ["<sos>"] are joined to the same text. *)
Theorem detokenize_reserved_symbol_ambiguous
    (sents : list string) (listing : list string) :
  set_listing (join sents) listing →
  (∀ x, x ∈ chars "<sos>" → x ∈ chars (join sents)) →
  ∃ (v : Vocab) (ids : list nat),
    build_tokenizer_from listing = Ok v
    ∧ tokenize ["<sos>"] v = Ok [sos_token_id v :: ids ++ [eos_token_id v]]
    ∧ length ids = 5
    ∧ detokenize v ids = Ok "<sos>"
    ∧ detokenize v [sos_token_id v] = Ok "<sos>".
Proof.
  intros Hl Hsub.
  destruct (vocab_layout _ _ Hl) as (v & Hv & Hitos & _ & Hsos & _).
  destruct (tokenize_one _ _ _ "<sos>" Hl Hv Hsub) as (ids & Htok & Hlen & Hall & _).
  exists v, ids. split_and!; [done..| |].
  - unfold detokenize. rewrite Hall. done.
  - unfold detokenize. simpl. unfold getitem_int.
    by rewrite Hitos, Hsos, lookup_app_r, Nat.sub_diag.
Qed.

End TokenizerExtras.

(** ** Seq2Seq *)

Module ModelMoreFacts.
Import Torch Model ModelFacts.

Section ModelMoreFacts.
Context `{Framework}.

Lemma call_decoder_Ok (self : Seq2Seq) (X : tensor Z) (h : hidden_state)
    (w w1 : World) (output : tensor F) (h' : hidden_state) :
  call_decoder self X h w = (Ok (output, h'), w1) →
  ∃ g1, decoder self X h (rng w) = (Ok (output, h'), g1)
        ∧ w1 = {| rng := g1; calls := calls w ++ [DecoderCall X h] |}.
Proof.
  rewrite call_decoder_eq. destruct (decoder self X h (rng w)) as [r g1].
  simpl. intros [= -> <-]. by exists g1.
Qed.

Lemma sample_item_calls (probs : tensor F) (w w' : World) (r : result Z) :
  sample_item probs w = (r, w') → calls w' = calls w.
Proof.
  unfold sample_item. rewrite SE_bind_eq. unfold lift_rng.
  destruct (multinomial probs 1 (rng w)) as [[sample|e] g]; simpl.
  - rewrite SE_bind_eq. unfold lift_result.
    destruct (getitem0 sample); by intros [= _ <-].
  - by intros [= _ <-].
Qed.

(** The decoder calls of the generation loop: one per token appended,
    on the current decoder input first and on the tokens appended after
    that, each with the hidden state the call before returned. *)
Lemma forward_loop_trace (self : Seq2Seq) (temperature : F) (iterations : list nat)
    (decoder_input : tensor Z) (decoder_hidden : hidden_state)
    (generated_seqs : list Z) (w w' : World) (out : list Z) :
  forward_loop self temperature iterations decoder_input decoder_hidden
    generated_seqs w = (Ok out, w') →
  ∃ new hiddens,
    out = generated_seqs ++ new
    ∧ length hiddens = length new
    ∧ calls w' = calls w ++
        zip_with DecoderCall
          (take (length new) (decoder_input :: (ones_1_1_times <$> new)))
          hiddens
    ∧ (∀ h, head hiddens = Some h → h = decoder_hidden)
    ∧ (∀ t X h h',
         (decoder_input :: (ones_1_1_times <$> new)) !! t = Some X →
         hiddens !! t = Some h → hiddens !! S t = Some h' →
         ∃ g output g', decoder self X h g = (Ok (output, h'), g')).
Proof.
  revert decoder_input decoder_hidden generated_seqs w.
  induction iterations as [|it iterations IH];
    intros decoder_input decoder_hidden generated_seqs w; simpl.
  - intros [= <- <-]. exists [], []. rewrite !app_nil_r. by split_and!.
  - intros ([output hidden'] & w1 & Hdec & Hrest)%SE_bind_Ok.
    apply call_decoder_Ok in Hdec as (g1 & Hdec & ->).
    apply SE_bind_Ok in Hrest as (token & w2 & Hsample & Hrest).
    apply sample_item_calls in Hsample as Hcalls. simpl in Hcalls.
    destruct (decide (token = eos_token_id self)) as [->|Hne].
    + injection Hrest as <- <-. exists [eos_token_id self], [decoder_hidden].
      split_and!; [done..| | |].
      * by rewrite Hcalls.
      * by intros h [= <-].
      * intros [|t] X h h' _ _ Hh'; simpl in Hh'; by rewrite ?lookup_nil in Hh'.
    + apply IH in Hrest as (new & hiddens & -> & Hlen & Htrace & Hhead & Hchain).
      exists (token :: new), (decoder_hidden :: hiddens).
      split_and!.
      * by rewrite <- app_assoc.
      * simpl. by rewrite Hlen.
      * rewrite Htrace, Hcalls. simpl. by rewrite <- app_assoc.
      * by intros h [= <-].
      * intros [|t] X h h' HX Hh Hh'; simpl in *.
        -- injection HX as <-. injection Hh as <-.
           assert (h' = hidden') as ->.
           { apply Hhead. by destruct hiddens; simplify_eq/=. }
           by exists (rng w), output, g1.
        -- by eapply Hchain.
Qed.

(** Iterations added at the end of the range only matter when the loop
    runs through without sampling the end id. *)
Lemma forward_loop_more_iterations (self : Seq2Seq) (temperature : F)
    (iterations more : list nat) (decoder_input : tensor Z)
    (decoder_hidden : hidden_state) (generated_seqs : list Z)
    (w w' : World) (out : list Z) :
  forward_loop self temperature iterations decoder_input decoder_hidden
    generated_seqs w = (Ok out, w') →
  (∀ new, out = generated_seqs ++ new → eos_token_id self ∈ new →
     forward_loop self temperature (iterations ++ more) decoder_input
       decoder_hidden generated_seqs w = (Ok out, w'))
  ∧ (∀ out' w'',
       forward_loop self temperature (iterations ++ more) decoder_input
         decoder_hidden generated_seqs w = (Ok out', w'') →
       out `prefix_of` out').
Proof.
  revert decoder_input decoder_hidden generated_seqs w.
  induction iterations as [|it iterations IH];
    intros decoder_input decoder_hidden generated_seqs w; simpl.
  - intros [= <- <-]. split.
    + intros new Hnew Hin. apply (f_equal length) in Hnew.
      rewrite length_app in Hnew. destruct new; [by apply elem_of_nil in Hin|].
      simpl in Hnew. lia.
    + intros out' w'' (new & -> & _)%forward_loop_inv. by exists new.
  - rewrite !SE_bind_eq.
    destruct (call_decoder self decoder_input decoder_hidden w)
      as [[[output hidden']|e] w1]; [|done].
    rewrite !SE_bind_eq.
    destruct (sample_item _ w1) as [[token|e] w2]; [|done].
    destruct (decide (token = eos_token_id self)) as [->|Hne].
    + intros [= <- <-]. split; [done|]. by intros out' w'' [= <- <-].
    + intros Hrun. destruct (IH _ _ _ _ Hrun) as [Hsame Hprefix].
      split; [|done]. intros new Hnew Hin.
      pose proof Hrun as (new' & Hout & _)%forward_loop_inv.
      apply (Hsame new'); [done|].
      rewrite Hout, <- app_assoc in Hnew. apply app_inv_head in Hnew as <-.
      apply elem_of_cons in Hin as [Heq|Hin]; [congruence|done].
Qed.

(** Whatever the outcome, the recorded calls only grow. *)
Lemma forward_loop_calls_grow (self : Seq2Seq) (temperature : F)
    (iterations : list nat) (decoder_input : tensor Z)
    (decoder_hidden : hidden_state) (generated_seqs : list Z) (w : World) :
  ∃ rest,
    calls (forward_loop self temperature iterations decoder_input
             decoder_hidden generated_seqs w).2 = calls w ++ rest.
Proof.
  revert decoder_input decoder_hidden generated_seqs w.
  induction iterations as [|it iterations IH];
    intros decoder_input decoder_hidden generated_seqs w; simpl.
  - exists []. by rewrite app_nil_r.
  - rewrite SE_bind_eq, call_decoder_eq.
    destruct (decoder self decoder_input decoder_hidden (rng w))
      as [[[output hidden']|e] g1]; simpl; [|by eexists].
    rewrite SE_bind_eq.
    match goal with |- context [sample_item ?p ?w1] =>
      destruct (sample_item p w1) as [[token|e] w2] eqn:Hs end.
    + apply sample_item_calls in Hs. simpl in Hs.
      destruct (decide (token = eos_token_id self)).
      * simpl. rewrite Hs. by eexists.
      * match goal with |- context [forward_loop ?a ?b ?c ?d ?e ?f w2] =>
          destruct (IH d e f w2) as [rest ->] end.
        rewrite Hs, <- app_assoc. by eexists.
    + apply sample_item_calls in Hs. simpl in *. rewrite Hs. by eexists.
Qed.

Lemma range_app (m n : Z) :
  (m ≤ n)%Z → ∃ more, range n = range m ++ more.
Proof.
  intros Hmn. unfold range.
  exists (seq (Z.to_nat m) (Z.to_nat n - Z.to_nat m)).
  rewrite <- seq_app. f_equal. lia.
Qed.

End ModelMoreFacts.
End ModelMoreFacts.

Module ModelExtras.
Import Torch Model ModelFacts ModelMoreFacts.

Section ModelExtras.
Context `{Framework}.

(** X10. The calls behind a sequence returned by [Seq2Seq.forward]: one encoder
    call, on the input with a batch dimension added, then one decoder call
    per returned token.  The first decoder call gets the (1, 1) tensor of
    the start id and the hidden state the encoder returned; every later
    one gets the (1, 1) tensor of the token sampled just before, and a
    hidden state that the decoder returns on the arguments of the call
    before it.  The start id is taken within [torch.long], so that the
    entry of the first tensor is the start id itself. *)
Theorem forward_call_trace (self : Seq2Seq) (input_tokens : tensor Z)
    (max_output_len : Z) (temperature : F) (w w' : World) (out : list Z) :
  int64 (sos_token_id self) →
  forward self input_tokens max_output_len temperature w = (Ok out, w') →
  ∃ hidden g hiddens,
    encoder self (unsqueeze0 input_tokens) (rng w) = (Ok hidden, g)
    ∧ length hiddens = length out
    ∧ calls w' = calls w ++
        EncoderCall (unsqueeze0 input_tokens)
        :: zip_with DecoderCall
             (take (length out) (ones_1_1_times <$> (sos_token_id self :: out)))
             hiddens
    ∧ (∀ h, head hiddens = Some h → h = hidden)
    ∧ (∀ t X h h',
         (ones_1_1_times <$> (sos_token_id self :: out)) !! t = Some X →
         hiddens !! t = Some h → hiddens !! S t = Some h' →
         ∃ g1 output g2, decoder self X h g1 = (Ok (output, h'), g2)).
Proof.
  intros _. unfold forward. intros (hidden & w1 & Henc & Hloop)%SE_bind_Ok.
  rewrite call_encoder_eq in Henc.
  destruct (encoder self (unsqueeze0 input_tokens) (rng w)) as [r g] eqn:He.
  simpl in Henc. injection Henc as -> <-.
  apply forward_loop_trace in Hloop
    as (new & hiddens & -> & Hlen & Htrace & Hhead & Hchain).
  simpl in *. exists hidden, g, hiddens. split_and!; [done..| |done|done].
  by rewrite Htrace, <- app_assoc.
Qed.

(** X11. [max_output_len] only truncates.  For a larger [max_output_len] and
    the same state, a run that returns gives a sequence that the shorter
    run's sequence is a prefix of; and once the end id has been sampled,
    the larger limit gives the very same sequence and final state. *)
Theorem forward_max_output_len_monotone (self : Seq2Seq) (input_tokens : tensor Z)
    (max_output_len max_output_len' : Z) (temperature : F) (w w' : World)
    (out : list Z) :
  forward self input_tokens max_output_len temperature w = (Ok out, w') →
  (max_output_len ≤ max_output_len')%Z →
  (eos_token_id self ∈ out →
   forward self input_tokens max_output_len' temperature w = (Ok out, w'))
  ∧ (∀ out' w'',
       forward self input_tokens max_output_len' temperature w = (Ok out', w'') →
       out `prefix_of` out').
Proof.
  unfold forward. rewrite !SE_bind_eq.
  destruct (call_encoder self (unsqueeze0 input_tokens) w) as [[hidden|e] w1];
    [|done].
  intros Hrun Hle. destruct (range_app _ _ Hle) as [more ->].
  destruct (forward_loop_more_iterations _ _ _ more _ _ _ _ _ _ Hrun)
    as [Hsame Hprefix].
  split; [|done]. intros Hin. by apply (Hsame out).
Qed.


End ModelExtras.
End ModelExtras.

(** ** Data preparation and deciphering cells *)

Module DataFacts.
Import Tokenizer TokenizerFacts TokenizerMoreFacts Torch Data.

Section DataFacts.
Context `{Library}.

Lemma drawn_sequence_drawable (seq_len : Z) (g g' : RandomState)
    (letters : list string) :
  choices_contract →
  random_choices (chars ascii_lowercase) seq_len g = (Returned letters, g') →
  drawable seq_len (join letters).
Proof.
  intros Hc Hdraw.
  destruct (Hc (chars ascii_lowercase) seq_len g letters g') as [Hlen Hin];
    [done..|].
  pose proof (chars_join_singletons _ _ Hin) as Hchars.
  split.
  - by rewrite <- chars_length, Hchars.
  - by rewrite Hchars.
Qed.

Lemma generate_loop_returned (cipher_key : cipher_key_type) (cipher : Cipher)
    (iterations : list nat) (seq_len : Z) (sents ciphered_sents : list string)
    (g g' : RandomState) (sents' ciphered_sents' : list string) :
  choices_contract →
  generate_loop cipher_key cipher iterations seq_len sents ciphered_sents g
  = (Returned (ciphered_sents', sents'), g') →
  ∃ new_sents new_ciphered,
    sents' = sents ++ new_sents
    ∧ ciphered_sents' = ciphered_sents ++ new_ciphered
    ∧ length new_sents = length iterations
    ∧ Forall2 (stored cipher_key cipher seq_len) new_sents new_ciphered.
Proof.
  intros Hc. revert sents ciphered_sents g.
  induction iterations as [|it iterations IH]; intros sents ciphered_sents g;
    cbn [generate_loop].
  - intros [= <- <- <-]. exists [], []. by rewrite !app_nil_r.
  - destruct (random_choices (chars ascii_lowercase) seq_len g)
      as [[letters|e] g1] eqn:Hletters; [|done].
    pose proof (drawn_sequence_drawable _ _ _ _ Hc Hletters) as Hdraw.
    destruct (encrypt cipher (join letters) cipher_key (Some al_ENGLISH))
      as [c|e] eqn:Henc; [|done].
    destruct (decrypt cipher c cipher_key None) as [s'|e] eqn:Hdec; [|done].
    destruct (decide (join letters = s')) as [<-|Hne]; [|done].
    intros (new_sents & new_ciphered & -> & -> & Hlen & Hall)%IH.
    eexists (_ :: new_sents), (_ :: new_ciphered).
    rewrite <- !app_assoc. split_and!; [done|done|simpl; lia|].
    constructor; [|done]. by split_and!.
Qed.

(** Where a failure of the loop comes from: the draw, the encryption or
    the decryption of a drawn sequence, or the round-trip check. *)
Lemma generate_loop_failed (cipher_key : cipher_key_type) (cipher : Cipher)
    (iterations : list nat) (seq_len : Z) (sents ciphered_sents : list string)
    (g g' : RandomState) (e : data_exn) :
  choices_contract →
  generate_loop cipher_key cipher iterations seq_len sents ciphered_sents g
  = (Failed e, g') →
  (∃ g0, random_choices (chars ascii_lowercase) seq_len g0 = (Failed e, g'))
  ∨ ∃ s, drawable seq_len s
         ∧ (encrypt cipher s cipher_key (Some al_ENGLISH) = Failed e
            ∨ ∃ c, encrypt cipher s cipher_key (Some al_ENGLISH) = Returned c
                   ∧ (decrypt cipher c cipher_key None = Failed e
                      ∨ ∃ s', decrypt cipher c cipher_key None = Returned s'
                              ∧ s' ≠ s ∧ e = AssertionError)).
Proof.
  intros Hc. revert sents ciphered_sents g.
  induction iterations as [|it iterations IH]; intros sents ciphered_sents g;
    cbn [generate_loop]; [done|].
  destruct (random_choices (chars ascii_lowercase) seq_len g)
    as [[letters|e0] g1] eqn:Hletters.
  - pose proof (drawn_sequence_drawable _ _ _ _ Hc Hletters) as Hdraw.
    destruct (encrypt cipher (join letters) cipher_key (Some al_ENGLISH))
      as [c|e0] eqn:Henc.
    + destruct (decrypt cipher c cipher_key None) as [s'|e0] eqn:Hdec.
      * destruct (decide (join letters = s')) as [<-|Hne]; [by apply IH|].
        intros [= <- <-]. right. exists (join letters). split; [done|].
        right. exists c. split; [done|]. right. exists s'. by split_and!.
      * intros [= <- <-]. right. exists (join letters). split; [done|].
        right. exists c. split; [done|]. by left.
    + intros [= <- <-]. right. exists (join letters). split; [done|]. by left.
  - intros [= <- <-]. left. by exists g.
Qed.

(** The loop returns when every draw returns and the cipher encrypts and
    decrypts every drawable sequence back. *)
Lemma generate_loop_returns (cipher_key : cipher_key_type) (cipher : Cipher)
    (iterations : list nat) (seq_len : Z) (sents ciphered_sents : list string)
    (g : RandomState) :
  choices_contract →
  (∀ g0, ∃ letters g1,
     random_choices (chars ascii_lowercase) seq_len g0 = (Returned letters, g1)) →
  (∀ s, drawable seq_len s →
     ∃ c, encrypt cipher s cipher_key (Some al_ENGLISH) = Returned c
          ∧ decrypt cipher c cipher_key None = Returned s) →
  ∃ ciphered_sents' sents' g',
    generate_loop cipher_key cipher iterations seq_len sents ciphered_sents g
    = (Returned (ciphered_sents', sents'), g').
Proof.
  intros Hc Hdraws Hround. revert sents ciphered_sents g.
  induction iterations as [|it iterations IH]; intros sents ciphered_sents g;
    cbn [generate_loop]; [by eauto|].
  destruct (Hdraws g) as (letters & g1 & Hletters). rewrite Hletters.
  pose proof (drawn_sequence_drawable _ _ _ _ Hc Hletters) as Hdraw.
  destruct (Hround _ Hdraw) as (c & -> & ->).
  destruct (decide (join letters = join letters)); [|done]. apply IH.
Qed.

Lemma torch_tensor_returns_iff (rows : list (list nat)) :
  (∃ t, torch_tensor rows = Returned t)
  ↔ (∀ r1 r2, r1 ∈ rows → r2 ∈ rows → length r1 = length r2).
Proof.
  unfold torch_tensor. destruct rows as [|row rows]; [split; [|by eauto]|].
  { by intros _ r1 r2 ?%elem_of_nil. }
  destruct (forallb _ _) eqn:Hall.
  - split; [|by eauto]. intros _ r1 r2 H1 H2.
    rewrite forallb_forall in Hall.
    apply list_elem_of_In in H1, H2. apply Hall in H1, H2.
    apply Nat.eqb_eq in H1, H2. congruence.
  - split; [by intros [? ?]|]. intros Hsame. exfalso.
    assert (forallb (λ r, length r =? length row) (row :: rows) = true);
      [|congruence].
    apply forallb_forall. intros r Hr%list_elem_of_In.
    apply Nat.eqb_eq, Hsame; [done|by left].
Qed.

Lemma torch_tensor_shape (rows : list (list nat)) (t : tensor Z) (row : list nat) :
  torch_tensor rows = Returned t → row ∈ rows →
  shape t = [length rows; length row] ∧ data t = Z.of_nat <$> concat rows.
Proof.
  intros Ht Hrow.
  assert (∃ t', torch_tensor rows = Returned t') as Hsame by eauto.
  pose proof (proj1 (torch_tensor_returns_iff rows) Hsame) as Hlen.
  clear Hsame.
  unfold torch_tensor in Ht. destruct rows as [|row0 rows].
  { by apply elem_of_nil in Hrow. }
  destruct (forallb _ _); [|done]. injection Ht as <-. simpl.
  split; [|done]. do 2 f_equal. apply Hlen; [by left|done].
Qed.

Lemma itos_all_ints_app (v : Vocab) (l1 l2 : list Z) :
  itos_all_ints v (l1 ++ l2) =
    match itos_all_ints v l1 with
    | Returned t1 =>
        match itos_all_ints v l2 with
        | Returned t2 => Returned (t1 ++ t2)
        | Failed e => Failed e
        end
    | Failed e => Failed e
    end.
Proof.
  induction l1 as [|i l1 IH]; simpl.
  - by destruct (itos_all_ints v l2).
  - destruct (if decide (0 ≤ i)%Z then itos v !! Z.to_nat i else None); [|done].
    rewrite IH. destruct (itos_all_ints v l1); [|done].
    by destruct (itos_all_ints v l2).
Qed.

(** The comprehension either maps every id, or fails with the [KeyError]
    of the first id that is not a key of [itos]. *)
Lemma itos_all_ints_cases (v : Vocab) (seqs : list Z) :
  (∃ tokens, itos_all_ints v seqs = Returned tokens
             ∧ Forall (λ i, (0 ≤ i)%Z ∧ is_Some (itos v !! Z.to_nat i)) seqs)
  ∨ (∃ pre i post, itos_all_ints v seqs = Failed (KeyErrorInt i)
                   ∧ seqs = pre ++ i :: post
                   ∧ Forall (λ j, (0 ≤ j)%Z ∧ is_Some (itos v !! Z.to_nat j)) pre
                   ∧ ¬ ((0 ≤ i)%Z ∧ is_Some (itos v !! Z.to_nat i))).
Proof.
  induction seqs as [|i seqs IH]; simpl.
  - left. by exists [].
  - destruct (decide (0 ≤ i)%Z) as [Hpos|Hneg].
    + destruct (itos v !! Z.to_nat i) as [t|] eqn:Hi.
      * destruct IH as [(tokens & -> & Hall)|(pre & j & post & -> & -> & Hpre & Hj)].
        -- left. exists (t :: tokens). split; [done|].
           constructor; [|done]. by rewrite Hi.
        -- right. exists (i :: pre), j, post. split_and!; [done..| |done].
           constructor; [|done]. by rewrite Hi.
      * right. exists [], i, seqs. split_and!; [done..|].
        rewrite Hi. by intros [_ [? ?]].
    + right. exists [], i, seqs. split_and!; [done..|]. by intros [? _].
Qed.

(** The first element of a list that fails a predicate is at one place. *)
Lemma first_failing_unique {A} (P : A → Prop) (pre pre' post post' : list A)
    (x x' : A) :
  pre ++ x :: post = pre' ++ x' :: post' →
  Forall P pre → ¬ P x → Forall P pre' → ¬ P x' → x = x'.
Proof.
  intros Heq Hpre Hx Hpre' Hx'.
  destruct (Nat.lt_trichotomy (length pre) (length pre')) as [Hlt|[Heql|Hgt]].
  - exfalso. apply (f_equal (λ l, l !! length pre)) in Heq.
    rewrite list_lookup_middle, lookup_app_l in Heq by done.
    symmetry in Heq. apply list_elem_of_lookup_2 in Heq.
    eapply Forall_forall in Hpre'; [|done]. done.
  - apply (f_equal (λ l, l !! length pre)) in Heq.
    rewrite list_lookup_middle in Heq by done.
    rewrite Heql, list_lookup_middle in Heq by done. congruence.
  - exfalso. apply (f_equal (λ l, l !! length pre')) in Heq.
    rewrite lookup_app_l in Heq by done.
    rewrite list_lookup_middle in Heq by done.
    apply list_elem_of_lookup_2 in Heq.
    eapply Forall_forall in Hpre; [|done]. done.
Qed.

(** The tokenized sentences as rows of a tensor. *)
Lemma tokenized_rows_tensor (v : Vocab) (sents : list string)
    (seqs : list (list nat)) :
  Forall2 (tokenized v) sents seqs →
  ((∃ t, torch_tensor seqs = Returned t)
   ↔ (∀ s1 s2, s1 ∈ sents → s2 ∈ sents → String.length s1 = String.length s2))
  ∧ (∀ t s, torch_tensor seqs = Returned t → s ∈ sents →
       shape t = [length sents; String.length s + 2]
       ∧ data t = Z.of_nat <$> concat seqs).
Proof.
  intros Hseqs.
  assert (Hlen : Forall2 (λ s seq, length seq = String.length s + 2) sents seqs).
  { eapply Forall2_impl; [exact Hseqs|]. intros s seq Hs.
    by apply (tokenized_length v). }
  split.
  - rewrite torch_tensor_returns_iff. split.
    + intros Hrows s1 s2 [n1 Hn1]%list_elem_of_lookup_1 [n2 Hn2]%list_elem_of_lookup_1.
      destruct (Forall2_lookup_l _ _ _ _ _ Hlen Hn1) as (r1 & Hr1 & Hl1).
      destruct (Forall2_lookup_l _ _ _ _ _ Hlen Hn2) as (r2 & Hr2 & Hl2).
      apply list_elem_of_lookup_2 in Hr1, Hr2.
      pose proof (Hrows _ _ Hr1 Hr2). lia.
    + intros Hsents r1 r2 [n1 Hn1]%list_elem_of_lookup_1 [n2 Hn2]%list_elem_of_lookup_1.
      destruct (Forall2_lookup_r _ _ _ _ _ Hlen Hn1) as (s1 & Hs1 & Hl1).
      destruct (Forall2_lookup_r _ _ _ _ _ Hlen Hn2) as (s2 & Hs2 & Hl2).
      apply list_elem_of_lookup_2 in Hs1, Hs2.
      pose proof (Hsents _ _ Hs1 Hs2). lia.
  - intros t s Ht [n Hn]%list_elem_of_lookup_1.
    destruct (Forall2_lookup_l _ _ _ _ _ Hlen Hn) as (row & Hrow & Hl).
    apply list_elem_of_lookup_2 in Hrow.
    destruct (torch_tensor_shape _ _ _ Ht Hrow) as [Hshape Hdata].
    split; [|done]. rewrite Hshape, Hl. f_equal.
    symmetry. by eapply Forall2_length.
Qed.

End DataFacts.
End DataFacts.

Module DataExtras.
Import Tokenizer TokenizerFacts TokenizerMoreFacts Torch Data DataFacts.

Section DataExtras.
Context `{Library}.

(** X13. What [generate_random_sequences] returns: the ciphered sentences
    first, the plain sentences second, [n_seqs] of each (none for a
    negative [n_seqs]).  Each plain sentence has [seq_len] lowercase
    letters, the ciphered sentence at the same index is its encryption
    under [al.ENGLISH], and decrypts back to it. *)
Theorem generate_random_sequences_returned
    (cipher_key : cipher_key_type) (cipher : Cipher) (n_seqs seq_len : Z)
    (g g' : RandomState) (ciphered_sents sents : list string) :
  choices_contract →
  generate_random_sequences cipher_key cipher n_seqs seq_len g
  = (Returned (ciphered_sents, sents), g') →
  length sents = Z.to_nat n_seqs
  ∧ length ciphered_sents = Z.to_nat n_seqs
  ∧ Forall2
      (λ s c,
         encrypt cipher s cipher_key (Some al_ENGLISH) = Returned c
         ∧ decrypt cipher c cipher_key None = Returned s
         ∧ String.length s = Z.to_nat seq_len
         ∧ ∀ x, x ∈ chars s → x ∈ chars ascii_lowercase)
      sents ciphered_sents.
Proof.
  intros Hc Hrun. unfold generate_random_sequences in Hrun.
  apply generate_loop_returned in Hrun
    as (new_sents & new_ciphered & -> & -> & Hlen & Hall); [|done].
  simpl. unfold range in Hlen. rewrite length_seq in Hlen.
  split_and!; [done| |].
  - by rewrite <- (Forall2_length _ _ _ Hall).
  - eapply Forall2_impl; [exact Hall|].
    by intros s c (? & ? & ? & ?).
Qed.

(** X14. Where a failure of [generate_random_sequences] comes from.  It is
    the exception of a call of [random.choices], or, for a string [s] of
    [seq_len] lowercase letters, the exception of [cipher.encrypt] on
    [s], the exception of [cipher.decrypt] on the ciphertext of [s], or
    the [AssertionError] of the round-trip check when [cipher.decrypt]
    returns another string than [s].  When [random.choices] returns and
    the cipher encrypts every such string and decrypts it back, the
    function returns. *)
Theorem generate_random_sequences_failure
    (cipher_key : cipher_key_type) (cipher : Cipher) (n_seqs seq_len : Z)
    (g : RandomState) :
  choices_contract →
  (∀ e g',
     generate_random_sequences cipher_key cipher n_seqs seq_len g
     = (Failed e, g') →
     (∃ g0, random_choices (chars ascii_lowercase) seq_len g0 = (Failed e, g'))
     ∨ ∃ s, drawable seq_len s
            ∧ (encrypt cipher s cipher_key (Some al_ENGLISH) = Failed e
               ∨ ∃ c, encrypt cipher s cipher_key (Some al_ENGLISH) = Returned c
                      ∧ (decrypt cipher c cipher_key None = Failed e
                         ∨ ∃ s', decrypt cipher c cipher_key None = Returned s'
                                 ∧ s' ≠ s ∧ e = AssertionError)))
  ∧ ((∀ g0, ∃ letters g1,
        random_choices (chars ascii_lowercase) seq_len g0
        = (Returned letters, g1)) →
     (∀ s, drawable seq_len s →
        ∃ c, encrypt cipher s cipher_key (Some al_ENGLISH) = Returned c
             ∧ decrypt cipher c cipher_key None = Returned s) →
     ∃ ciphered_sents sents g',
       generate_random_sequences cipher_key cipher n_seqs seq_len g
       = (Returned (ciphered_sents, sents), g')).
Proof.
  intros Hc. unfold generate_random_sequences. split.
  - intros e g'. by apply generate_loop_failed.
  - intros Hdraws Hround. by apply generate_loop_returns.
Qed.

(** X15. The tokenized plain sentences as a tensor, as the notebook builds its
    dataset: sentences drawn by [generate_random_sequences] and tokenized
    with the vocabulary built from them make a tensor of shape
    (n_seqs, seq_len + 2). *)
Theorem generated_sentences_tensor_shape
    (cipher_key : cipher_key_type) (cipher : Cipher) (n_seqs seq_len : Z)
    (g g' : RandomState) (ciphered_sents sents : list string)
    (listing : list string) :
  choices_contract →
  (1 ≤ n_seqs)%Z →
  generate_random_sequences cipher_key cipher n_seqs seq_len g
  = (Returned (ciphered_sents, sents), g') →
  set_listing (join sents) listing →
  ∃ (v : Vocab) (seqs : list (list nat)) (t : tensor Z),
    build_tokenizer_from listing = Ok v
    ∧ tokenize sents v = Ok seqs
    ∧ torch_tensor seqs = Returned t
    ∧ shape t = [Z.to_nat n_seqs; Z.to_nat seq_len + 2].
Proof.
  intros Hc Hn Hrun Hl. unfold generate_random_sequences in Hrun.
  apply generate_loop_returned in Hrun
    as (new_sents & new_ciphered & Hsents & _ & Hlen & Hall); [|done].
  simpl in Hsents. subst new_sents.
  unfold range in Hlen. rewrite length_seq in Hlen.
  assert (Hsame : ∀ s, s ∈ sents → String.length s = Z.to_nat seq_len).
  { intros s [n Hs]%list_elem_of_lookup_1.
    by destruct (Forall2_lookup_l _ _ _ _ _ Hall Hs) as (c & _ & _ & _ & ? & _). }
  destruct (vocab_layout _ _ Hl) as (v & Hv & _). unfold tokenize.
  destruct (tokenize_sents_cases v sents [])
    as [(seqs & Htok & Hseqs)|(s & x & Htok & Hs & Hx & Hnone)].
  - destruct (tokenized_rows_tensor v sents seqs Hseqs) as [Hiff Hshape].
    destruct (proj2 Hiff) as [t Ht].
    { intros s1 s2 H1 H2. by rewrite !Hsame. }
    exists v, seqs, t. split_and!; [done..|].
    destruct sents as [|s sents]; [simpl in Hlen; lia|].
    destruct (Hshape t s Ht) as [-> _]; [by left|].
    rewrite Hlen, Hsame; [done|by left].
  - exfalso.
    destruct (stoi_char _ _ _ x Hl Hv (chars_join_elem_of _ _ _ Hs Hx))
      as (i & Hi & _).
    congruence.
Qed.

End DataExtras.

(** X16. [torch.tensor] of a tokenized corpus returns exactly when all the
    sentences have the same length; the tensor then has one row per
    sentence and [len(s) + 2] columns. *)
Theorem tokenized_corpus_tensor
    (sents : list string) (listing : list string) :
  set_listing (join sents) listing →
  ∃ (v : Vocab) (seqs : list (list nat)),
    build_tokenizer_from listing = Ok v
    ∧ tokenize sents v = Ok seqs
    ∧ ((∃ t, torch_tensor seqs = Returned t)
       ↔ (∀ s1 s2, s1 ∈ sents → s2 ∈ sents →
            String.length s1 = String.length s2))
    ∧ (∀ t s, torch_tensor seqs = Returned t → s ∈ sents →
         shape t = [length sents; String.length s + 2]
         ∧ data t = Z.of_nat <$> concat seqs).
Proof.
  intros Hl. destruct (vocab_layout _ _ Hl) as (v & Hv & _). unfold tokenize.
  destruct (tokenize_sents_cases v sents [])
    as [(seqs & Htok & Hseqs)|(s & x & Htok & Hs & Hx & Hnone)].
  - exists v, seqs. split_and!; [done..| |];
      by destruct (tokenized_rows_tensor v sents seqs Hseqs).
  - exfalso.
    destruct (stoi_char _ _ _ x Hl Hv (chars_join_elem_of _ _ _ Hs Hx))
      as (i & Hi & _).
    congruence.
Qed.

(** X7. The join of the deciphering cell,
    ["".join([trg_vocab["itos"][i] for i in seqs])], on the integers a
    model returns: it returns exactly when every id [i] has
    [0 <= i < len(trg_vocab["itos"])]; otherwise it fails with the
    [KeyError] of the first id that has not, a negative id included. *)
Theorem decipher_join_returns_iff_ids_in_range
    (sents : list string) (listing : list string) (seqs : list Z) :
  set_listing (join sents) listing →
  ∃ v : Vocab,
    build_tokenizer_from listing = Ok v
    ∧ ((∃ text, decipher_join v seqs = Returned text)
       ↔ Forall (λ i, (0 ≤ i < Z.of_nat (size (itos v)))%Z) seqs)
    ∧ (∀ pre i post,
         seqs = pre ++ i :: post →
         Forall (λ j, (0 ≤ j < Z.of_nat (size (itos v)))%Z) pre →
         ¬ (0 ≤ i < Z.of_nat (size (itos v)))%Z →
         decipher_join v seqs = Failed (KeyErrorInt i)).
Proof.
  intros Hl.
  destruct (vocab_layout _ _ Hl) as (v & Hv & Hitos & _).
  destruct (vocab_sizes _ _ _ Hl Hv) as (_ & Hsize & _).
  assert (Hdom : ∀ i : Z, (0 ≤ i)%Z ∧ is_Some (itos v !! Z.to_nat i)
                          ↔ (0 ≤ i < Z.of_nat (size (itos v)))%Z).
  { intros i. rewrite Hitos, lookup_lt_is_Some, Hsize, length_app.
    rewrite (Permutation_length (sorted_Permutation listing)). simpl. lia. }
  assert (Hall : ∀ l : list Z,
            Forall (λ i, (0 ≤ i)%Z ∧ is_Some (itos v !! Z.to_nat i)) l
            ↔ Forall (λ i, (0 ≤ i < Z.of_nat (size (itos v)))%Z) l).
  { intros l. apply Forall_proper; [|done]. intros i. apply Hdom. }
  exists v. split; [done|]. unfold decipher_join.
  destruct (itos_all_ints_cases v seqs)
    as [(tokens & -> & Htok)|(pre & i & post & -> & -> & Hpre & Hi)].
  - split.
    + split; [|by eauto]. intros _. by apply Hall.
    + intros pre i post -> _ Hi. exfalso. apply Hi.
      apply Hall, Forall_app in Htok as [_ Htok].
      by apply Forall_cons in Htok as [? _].
  - split.
    + split; [by intros [? ?]|]. intros Hseqs. exfalso. apply Hi, Hdom.
      apply Forall_app in Hseqs as [_ Hseqs].
      by apply Forall_cons in Hseqs as [? _].
    + intros pre' j post' Heq Hpre' Hj. do 2 f_equal.
      eapply (first_failing_unique
                (λ i, (0 ≤ i < Z.of_nat (size (itos v)))%Z)); [exact Heq|..].
      * by apply Hall.
      * by rewrite <- Hdom.
      * done.
      * done.
Qed.

End DataExtras.

Module DecipherExtras.
Import Tokenizer TokenizerFacts TokenizerMoreFacts Torch Data DataFacts.
Import ModelFacts ModelMoreFacts.

Section DecipherExtras.
Context `{Framework}.

(** X17. The input of the deciphering cell.  For a text [s] over the
    characters of the corpus, [torch.tensor(tokenize([s], vocab))] is the
    (1, len(s) + 2) tensor of the start id, the ids of [s] and the end
    id; [.squeeze(0)] makes it one-dimensional, and [Seq2Seq.forward]
    hands the encoder the two-dimensional tensor again, as its first
    call. *)
Theorem decipher_encoder_input
    (sents : list string) (listing : list string) (v : Vocab) (s : string)
    (self : Model.Seq2Seq) (max_output_len : Z) (temperature : F)
    (w : Model.World) :
  set_listing (join sents) listing →
  build_tokenizer_from listing = Ok v →
  (∀ x, x ∈ chars s → x ∈ chars (join sents)) →
  ∃ (ids : list nat) (t : tensor Z) (rest : list Model.call),
    tokenize [s] v = Ok [sos_token_id v :: ids ++ [eos_token_id v]]
    ∧ torch_tensor [sos_token_id v :: ids ++ [eos_token_id v]] = Returned t
    ∧ shape t = [1; String.length s + 2]
    ∧ data t = Z.of_nat <$> (sos_token_id v :: ids ++ [eos_token_id v])
    ∧ shape (squeeze0 t) = [String.length s + 2]
    ∧ Model.calls
        (Model.forward self (squeeze0 t) max_output_len temperature w).2
      = Model.calls w ++ Model.EncoderCall t :: rest.
Proof.
  intros Hl Hv Hsub.
  destruct (tokenize_one _ _ _ s Hl Hv Hsub) as (ids & Htok & Hlen & _).
  set (seq := sos_token_id v :: ids ++ [eos_token_id v]) in *.
  assert (Hseq : length seq = String.length s + 2).
  { unfold seq. simpl. rewrite length_app. simpl. lia. }
  assert (Ht : torch_tensor [seq]
               = Returned (Tensor [1; length seq] (Z.of_nat <$> seq))).
  { unfold torch_tensor. cbn [forallb]. rewrite Nat.eqb_refl. simpl.
    by rewrite app_nil_r. }
  assert (Hsq : squeeze0 (Tensor [1; length seq] (Z.of_nat <$> seq))
                = Tensor [length seq] (Z.of_nat <$> seq)) by done.
  assert (∃ rest,
    Model.calls
      (Model.forward self (Tensor [length seq] (Z.of_nat <$> seq))
         max_output_len temperature w).2
    = Model.calls w
      ++ Model.EncoderCall (Tensor [1; length seq] (Z.of_nat <$> seq)) :: rest)
    as [rest Hcalls].
  { unfold Model.forward. rewrite SE_bind_eq, call_encoder_eq.
    change (unsqueeze0 (Tensor [length seq] (Z.of_nat <$> seq)))
      with (Tensor [1; length seq] (Z.of_nat <$> seq)).
    destruct (Model.encoder self _ (Model.rng w)) as [[hidden|e] g]; simpl.
    - match goal with |- context [Model.forward_loop ?a ?b ?c ?d ?e ?f ?w1] =>
        destruct (forward_loop_calls_grow a b c d e f w1) as [rest ->] end.
      simpl. rewrite <- app_assoc. by eexists.
    - by exists []. }
  eexists ids, _, rest. split_and!; [done|exact Ht|..].
  - rewrite <- Hseq. reflexivity.
  - reflexivity.
  - rewrite Hsq, <- Hseq. reflexivity.
  - by rewrite Hsq.
Qed.

(** X18. The deciphering cell does not strip the end marker.  When the model's
    end id is the vocabulary's and generation stops before
    [max_output_len] tokens, the text joined from the returned ids ends
    with the five characters ["<eos>"]. *)
Theorem decipher_join_keeps_end_marker
    (sents : list string) (listing : list string) (v : Vocab)
    (self : Model.Seq2Seq) (input_tokens : tensor Z) (max_output_len : Z)
    (temperature : F) (w w' : Model.World) (out : list Z) (text : string) :
  set_listing (join sents) listing →
  build_tokenizer_from listing = Ok v →
  Model.eos_token_id self = Z.of_nat (eos_token_id v) →
  Model.forward self input_tokens max_output_len temperature w = (Ok out, w') →
  (Z.of_nat (length out) < max_output_len)%Z →
  decipher_join v out = Returned text →
  ∃ body, text = body +:+ "<eos>".
Proof.
  intros Hl Hv Heos Hrun Hlt Hjoin.
  destruct (vocab_layout _ _ Hl) as (v' & Hv' & Hitos & _ & _ & Heosid & _).
  assert (v' = v) as -> by congruence.
  unfold Model.forward in Hrun.
  apply SE_bind_Ok in Hrun as (hidden & w1 & _ & Hloop).
  apply forward_loop_inv in Hloop as (new & -> & _ & _ & Hearly & _).
  simpl in *. rewrite length_range in Hearly.
  assert (last new = Some (Model.eos_token_id self)) as Hlast
    by (apply Hearly; lia).
  apply last_Some in Hlast as [pre ->].
  unfold decipher_join in Hjoin. rewrite itos_all_ints_app in Hjoin.
  destruct (itos_all_ints v pre) as [tokens|]; [|done].
  simpl in Hjoin. rewrite Heos in Hjoin.
  rewrite decide_True in Hjoin by lia.
  rewrite Nat2Z.id, Hitos, Heosid, lookup_app_r in Hjoin by lia.
  replace (length (sorted listing) + 1 - length (sorted listing)) with 1
    in Hjoin by lia.
  simpl in Hjoin. injection Hjoin as <-.
  exists (join tokens). rewrite join_app. simpl.
  by rewrite string_app_empty_r.
Qed.

End DecipherExtras.
End DecipherExtras.

(** ** The further properties at concrete inputs *)

Module TokenizerExtraExamples.
Import Tokenizer TokenizerFacts ToyData.

Lemma abc_vocab_built : build_tokenizer_from ["c"; "a"; "b"] = Ok abc_vocab.
Proof. by vm_compute. Defined.

Lemma a_bc_listing : set_listing (join ["a"; "bc"; "b"]) ["b"; "c"; "a"].
Proof.
  split.
  - apply (bool_decide_unpack _). by vm_compute.
  - intros x. change (join ["a"; "bc"; "b"]) with "abcb". simpl.
    rewrite !elem_of_cons, !elem_of_nil. tauto.
Defined.

Lemma same_characters :
  ∀ x, x ∈ chars (join ["cab"; "abc"]) ↔ x ∈ chars (join ["a"; "bc"; "b"]).
Proof.
  intros x. change (join ["cab"; "abc"]) with "cababc".
  change (join ["a"; "bc"; "b"]) with "abcb". simpl.
  rewrite !elem_of_cons, !elem_of_nil. tauto.
Defined.

Lemma sos_listing : set_listing (join ["so<"; ">s"]) ["s"; "o"; "<"; ">"].
Proof.
  split.
  - apply (bool_decide_unpack _). by vm_compute.
  - intros x. change (join ["so<"; ">s"]) with "so<>s". simpl.
    rewrite !elem_of_cons, !elem_of_nil. tauto.
Defined.

Lemma sos_spelling_in_corpus :
  ∀ x, x ∈ chars "<sos>" → x ∈ chars (join ["so<"; ">s"]).
Proof.
  intros x. change (join ["so<"; ">s"]) with "so<>s". simpl.
  rewrite !elem_of_cons, !elem_of_nil. tauto.
Defined.

Lemma tokenize_returns_iff_characters_seen_witness :
  ∃ v : Vocab,
    build_tokenizer_from ["c"; "a"; "b"] = Ok v
    ∧ ((∃ seqs, tokenize ["ab"; "axb"] v = Ok seqs)
       ↔ (∀ s x, s ∈ ["ab"; "axb"] → x ∈ chars s →
            x ∈ chars (join ["cab"; "abc"])))
    ∧ (∀ seqs, tokenize ["ab"; "axb"] v = Ok seqs →
         length seqs = length ["ab"; "axb"]
         ∧ ∀ i s seq, ["ab"; "axb"] !! i = Some s → seqs !! i = Some seq →
             length seq = String.length s + 2
             ∧ head seq = Some (sos_token_id v)
             ∧ last seq = Some (eos_token_id v)).
Proof.
  exact (TokenizerExtras.tokenize_returns_iff_characters_seen
           ["cab"; "abc"] ["c"; "a"; "b"] ["ab"; "axb"] TokenizerExamples.abc_listing).
Defined.

Lemma tokenize_ids_below_vocabulary_size_witness :
  ∃ v : Vocab,
    build_tokenizer_from ["c"; "a"; "b"] = Ok v
    ∧ size (stoi v) = length ["c"; "a"; "b"] + 3
    ∧ size (itos v) = length ["c"; "a"; "b"] + 3
    ∧ (∀ seqs seq i, tokenize ["ab"; "ca"] v = Ok seqs →
         seq ∈ seqs → i ∈ seq → i < size (stoi v) ∧ is_Some (itos v !! i)).
Proof.
  exact (TokenizerExtras.tokenize_ids_below_vocabulary_size
           ["cab"; "abc"] ["c"; "a"; "b"] ["ab"; "ca"] TokenizerExamples.abc_listing).
Defined.

Lemma build_tokenizer_depends_on_character_set_witness :
  build_tokenizer_from ["c"; "a"; "b"] = build_tokenizer_from ["b"; "c"; "a"]
  ∧ build_tokenizer ["cab"; "abc"] = build_tokenizer ["a"; "bc"; "b"].
Proof.
  exact (TokenizerExtras.build_tokenizer_depends_on_character_set
           ["cab"; "abc"] ["a"; "bc"; "b"] ["c"; "a"; "b"] ["b"; "c"; "a"]
           TokenizerExamples.abc_listing a_bc_listing same_characters).
Defined.

Lemma tokenize_own_corpus_returns_witness :
  ∃ (v : Vocab) (seqs : list (list nat)),
    build_tokenizer_from ["c"; "a"; "b"] = Ok v
    ∧ tokenize ["cab"; "abc"] v = Ok seqs
    ∧ Forall2 (λ s seq, length seq = String.length s + 2) ["cab"; "abc"] seqs.
Proof.
  exact (TokenizerExtras.tokenize_own_corpus_returns
           ["cab"; "abc"] ["c"; "a"; "b"] TokenizerExamples.abc_listing).
Defined.

Lemma tokenize_injective_witness : ["ab"; "c"] = ["ab"; "c"].
Proof.
  apply (TokenizerExtras.tokenize_injective
           ["cab"; "abc"] ["c"; "a"; "b"] ["ab"; "c"] ["ab"; "c"] abc_vocab
           [[3; 0; 1; 4]; [3; 2; 4]] TokenizerExamples.abc_listing abc_vocab_built).
  - by vm_compute.
  - by vm_compute.
Defined.

Lemma detokenize_then_tokenize_witness :
  ∃ s, detokenize abc_vocab [2; 0; 1] = Ok s
       ∧ String.length s = length [2; 0; 1]
       ∧ tokenize [s] abc_vocab
         = Ok [sos_token_id abc_vocab :: [2; 0; 1] ++ [eos_token_id abc_vocab]].
Proof.
  apply (TokenizerExtras.detokenize_then_tokenize
           ["cab"; "abc"] ["c"; "a"; "b"] abc_vocab [2; 0; 1]
           TokenizerExamples.abc_listing abc_vocab_built).
  repeat constructor.
Defined.

Lemma detokenize_reserved_symbol_ambiguous_witness :
  ∃ (v : Vocab) (ids : list nat),
    build_tokenizer_from ["s"; "o"; "<"; ">"] = Ok v
    ∧ tokenize ["<sos>"] v = Ok [sos_token_id v :: ids ++ [eos_token_id v]]
    ∧ length ids = 5
    ∧ detokenize v ids = Ok "<sos>"
    ∧ detokenize v [sos_token_id v] = Ok "<sos>".
Proof.
  exact (TokenizerExtras.detokenize_reserved_symbol_ambiguous
           ["so<"; ">s"] ["s"; "o"; "<"; ">"] sos_listing sos_spelling_in_corpus).
Defined.

End TokenizerExtraExamples.

Module ModelExtraExamples.
Import Torch Model Toy.

Lemma forward_call_trace_witness :
  ∃ hidden g hiddens,
    encoder toy_model (unsqueeze0 (Tensor [2] [0; 1]%Z))
      (rng (toy_world [0; 1; 2; 1]%Z)) = (Ok hidden, g)
    ∧ length hiddens = length [0; 1; 2]%Z
    ∧ calls (forward toy_model (Tensor [2] [0; 1]%Z) 5 1%Z
               (toy_world [0; 1; 2; 1]%Z)).2
      = calls (toy_world [0; 1; 2; 1]%Z) ++
        EncoderCall (unsqueeze0 (Tensor [2] [0; 1]%Z))
        :: zip_with DecoderCall
             (take (length [0; 1; 2]%Z)
                (ones_1_1_times <$> (sos_token_id toy_model :: [0; 1; 2]%Z)))
             hiddens
    ∧ (∀ h, head hiddens = Some h → h = hidden)
    ∧ (∀ t X h h',
         (ones_1_1_times <$> (sos_token_id toy_model :: [0; 1; 2]%Z)) !! t
         = Some X →
         hiddens !! t = Some h → hiddens !! S t = Some h' →
         ∃ g1 output g2, decoder toy_model X h g1 = (Ok (output, h'), g2)).
Proof.
  apply (ModelExtras.forward_call_trace toy_model (Tensor [2] [0; 1]%Z) 5 1%Z
           (toy_world [0; 1; 2; 1]%Z)).
  - unfold int64. simpl. lia.
  - by vm_compute.
Defined.

Lemma forward_max_output_len_monotone_witness :
  (eos_token_id toy_model ∈ [0; 1; 2]%Z →
   forward toy_model (Tensor [2] [0; 1]%Z) 8 1%Z (toy_world [0; 1; 2; 1]%Z)
   = (Ok [0; 1; 2]%Z,
      (forward toy_model (Tensor [2] [0; 1]%Z) 5 1%Z
         (toy_world [0; 1; 2; 1]%Z)).2))
  ∧ (∀ out' w'',
       forward toy_model (Tensor [2] [0; 1]%Z) 8 1%Z (toy_world [0; 1; 2; 1]%Z)
       = (Ok out', w'') →
       [0; 1; 2]%Z `prefix_of` out').
Proof.
  apply (ModelExtras.forward_max_output_len_monotone toy_model
           (Tensor [2] [0; 1]%Z) 5 8 1%Z (toy_world [0; 1; 2; 1]%Z)).
  - by vm_compute.
  - lia.
Defined.


End ModelExtraExamples.

Module DataExtraExamples.
Import Tokenizer TokenizerFacts Torch Data ToyData.

Lemma toy_choices_contract : choices_contract.
Proof.
  intros population k g letters g' Hne [= <- <-]. split.
  - rewrite length_take, length_fmap, length_app, length_replicate. lia.
  - intros x Hx. apply elem_of_take in Hx as (i & Hx & _).
    apply list_elem_of_lookup_2, list_elem_of_fmap in Hx as (y & -> & _).
    case_decide; [done|].
    destruct population as [|p population]; [done|]. by left.
Qed.

Lemma swap_ab_involutive (s : string) : swap_ab (swap_ab s) = s.
Proof.
  induction s as [|c s IH]; [done|]. simpl. rewrite IH. f_equal.
  unfold swap_ab_char. repeat case_decide; congruence.
Qed.

Lemma toy_cipher_round_trip (s : string) :
  ∃ c, encrypt toy_cipher s toy_key (Some al_ENGLISH) = Returned c
       ∧ decrypt toy_cipher c toy_key None = Returned s.
Proof. exists (swap_ab s). simpl. by rewrite swap_ab_involutive. Qed.

Example generate_toy :
  generate_random_sequences toy_key toy_cipher 2 3 ["a"; "b"; "c"; "z"; "a"; "q"; "r"]
  = (Returned (["bac"; "zbq"], ["abc"; "zaq"]), ["r"]).
Proof. by vm_compute. Qed.

Example generate_broken_cipher :
  generate_random_sequences toy_key broken_cipher 2 3
    ["c"; "d"; "c"; "a"; "a"; "q"; "r"]
  = (Failed AssertionError, ["r"]).
Proof. by vm_compute. Qed.

Example generate_raising_cipher :
  generate_random_sequences toy_key raising_cipher 2 3
    ["c"; "d"; "c"; "a"; "a"; "q"; "r"]
  = (Failed (LibraryError "TypeError"), ["a"; "a"; "q"; "r"]).
Proof. by vm_compute. Qed.

Lemma generate_random_sequences_returned_witness :
  length ["abc"; "zaq"] = Z.to_nat 2
  ∧ length ["bac"; "zbq"] = Z.to_nat 2
  ∧ Forall2
      (λ s c,
         encrypt toy_cipher s toy_key (Some al_ENGLISH) = Returned c
         ∧ decrypt toy_cipher c toy_key None = Returned s
         ∧ String.length s = Z.to_nat 3
         ∧ ∀ x, x ∈ chars s → x ∈ chars ascii_lowercase)
      ["abc"; "zaq"] ["bac"; "zbq"].
Proof.
  apply (DataExtras.generate_random_sequences_returned toy_key toy_cipher 2 3
           ["a"; "b"; "c"; "z"; "a"; "q"; "r"] ["r"]).
  - apply toy_choices_contract.
  - by vm_compute.
Defined.

Lemma generate_random_sequences_failure_witness :
  (∀ e g',
     generate_random_sequences toy_key toy_cipher 2 3
       ["c"; "d"; "c"; "a"; "a"; "q"; "r"] = (Failed e, g') →
     (∃ g0, random_choices (chars ascii_lowercase) 3 g0 = (Failed e, g'))
     ∨ ∃ s, drawable 3 s
            ∧ (encrypt toy_cipher s toy_key (Some al_ENGLISH) = Failed e
               ∨ ∃ c, encrypt toy_cipher s toy_key (Some al_ENGLISH)
                      = Returned c
                      ∧ (decrypt toy_cipher c toy_key None = Failed e
                         ∨ ∃ s', decrypt toy_cipher c toy_key None
                                 = Returned s'
                                 ∧ s' ≠ s ∧ e = AssertionError)))
  ∧ ∃ ciphered_sents sents g',
      generate_random_sequences toy_key toy_cipher 2 3
        ["c"; "d"; "c"; "a"; "a"; "q"; "r"]
      = (Returned (ciphered_sents, sents), g').
Proof.
  destruct (DataExtras.generate_random_sequences_failure toy_key toy_cipher
              2 3 ["c"; "d"; "c"; "a"; "a"; "q"; "r"] toy_choices_contract)
    as [Hfail Hreturn].
  split; [exact Hfail|]. apply Hreturn.
  - intros g0. by eexists _, _.
  - intros s _. apply toy_cipher_round_trip.
Defined.

Lemma abczaq_listing :
  set_listing (join ["abc"; "zaq"]) ["q"; "a"; "z"; "c"; "b"].
Proof.
  split.
  - apply (bool_decide_unpack _). by vm_compute.
  - intros x. change (join ["abc"; "zaq"]) with "abczaq". simpl.
    rewrite !elem_of_cons, !elem_of_nil. tauto.
Defined.

Lemma generated_sentences_tensor_shape_witness :
  ∃ (v : Vocab) (seqs : list (list nat)) (t : tensor Z),
    build_tokenizer_from ["q"; "a"; "z"; "c"; "b"] = Ok v
    ∧ tokenize ["abc"; "zaq"] v = Ok seqs
    ∧ torch_tensor seqs = Returned t
    ∧ shape t = [Z.to_nat 2; Z.to_nat 3 + 2].
Proof.
  apply (DataExtras.generated_sentences_tensor_shape toy_key toy_cipher 2 3
           ["a"; "b"; "c"; "z"; "a"; "q"; "r"] ["r"] ["bac"; "zbq"]).
  - apply toy_choices_contract.
  - lia.
  - by vm_compute.
  - apply abczaq_listing.
Defined.

Lemma tokenized_corpus_tensor_witness :
  ∃ (v : Vocab) (seqs : list (list nat)),
    build_tokenizer_from ["c"; "a"; "b"] = Ok v
    ∧ tokenize ["cab"; "abc"] v = Ok seqs
    ∧ ((∃ t, torch_tensor seqs = Returned t)
       ↔ (∀ s1 s2, s1 ∈ ["cab"; "abc"] → s2 ∈ ["cab"; "abc"] →
            String.length s1 = String.length s2))
    ∧ (∀ t s, torch_tensor seqs = Returned t → s ∈ ["cab"; "abc"] →
         shape t = [length ["cab"; "abc"]; String.length s + 2]
         ∧ data t = Z.of_nat <$> concat seqs).
Proof.
  exact (DataExtras.tokenized_corpus_tensor ["cab"; "abc"] ["c"; "a"; "b"]
           TokenizerExamples.abc_listing).
Defined.

Example tokenized_corpus_tensor_abc :
  torch_tensor [[3; 2; 0; 1; 4]; [3; 0; 1; 2; 4]]
  = Returned (Tensor [2; 5] [3; 2; 0; 1; 4; 3; 0; 1; 2; 4]%Z).
Proof. by vm_compute. Qed.

Example ragged_rows_rejected :
  torch_tensor [[3; 0; 4]; [3; 0; 1; 4]]
  = Failed (ValueError "expected sequence of equal lengths").
Proof. by vm_compute. Qed.

Lemma decipher_encoder_input_witness :
  ∃ (ids : list nat) (t : tensor Z) (rest : list Model.call),
    tokenize ["abca"] abc_vocab
    = Ok [sos_token_id abc_vocab :: ids ++ [eos_token_id abc_vocab]]
    ∧ torch_tensor [sos_token_id abc_vocab :: ids ++ [eos_token_id abc_vocab]]
      = Returned t
    ∧ shape t = [1; String.length "abca" + 2]
    ∧ data t
      = Z.of_nat <$> (sos_token_id abc_vocab :: ids ++ [eos_token_id abc_vocab])
    ∧ shape (squeeze0 t) = [String.length "abca" + 2]
    ∧ Model.calls
        (Model.forward abc_model (squeeze0 t) 10 1%Z (Toy.toy_world [0; 4]%Z)).2
      = Model.calls (Toy.toy_world [0; 4]%Z) ++ Model.EncoderCall t :: rest.
Proof.
  apply (DecipherExtras.decipher_encoder_input ["cab"; "abc"] ["c"; "a"; "b"]
           abc_vocab "abca" abc_model 10 1%Z (Toy.toy_world [0; 4]%Z)
           TokenizerExamples.abc_listing TokenizerExtraExamples.abc_vocab_built
           TokenizerExamples.abca_over_alphabet).
Defined.

Lemma decipher_join_returns_iff_ids_in_range_witness :
  ∃ v : Vocab,
    build_tokenizer_from ["c"; "a"; "b"] = Ok v
    ∧ ((∃ text, decipher_join v [0; -1; 1]%Z = Returned text)
       ↔ Forall (λ i, (0 ≤ i < Z.of_nat (size (itos v)))%Z) [0; -1; 1]%Z)
    ∧ (∀ pre i post,
         [0; -1; 1]%Z = pre ++ i :: post →
         Forall (λ j, (0 ≤ j < Z.of_nat (size (itos v)))%Z) pre →
         ¬ (0 ≤ i < Z.of_nat (size (itos v)))%Z →
         decipher_join v [0; -1; 1]%Z = Failed (KeyErrorInt i)).
Proof.
  exact (DataExtras.decipher_join_returns_iff_ids_in_range
           ["cab"; "abc"] ["c"; "a"; "b"] [0; -1; 1]%Z
           TokenizerExamples.abc_listing).
Defined.

Example decipher_join_negative_id :
  decipher_join abc_vocab [0; -1; 1]%Z = Failed (KeyErrorInt (-1)).
Proof. by vm_compute. Qed.

Example decipher_join_abc :
  decipher_join abc_vocab [0; 1; 4]%Z = Returned "ab<eos>".
Proof. by vm_compute. Qed.

Lemma decipher_join_keeps_end_marker_witness :
  ∃ body, "ab<eos>" = body +:+ "<eos>".
Proof.
  apply (DecipherExtras.decipher_join_keeps_end_marker ["cab"; "abc"]
           ["c"; "a"; "b"] abc_vocab abc_model (Tensor [2] [0; 1]%Z) 10 1%Z
           (Toy.toy_world [0; 1; 4; 2]%Z)
           (Model.forward abc_model (Tensor [2] [0; 1]%Z) 10 1%Z
              (Toy.toy_world [0; 1; 4; 2]%Z)).2
           [0; 1; 4]%Z "ab<eos>"
           TokenizerExamples.abc_listing TokenizerExtraExamples.abc_vocab_built).
  - reflexivity.
  - by vm_compute.
  - simpl. lia.
  - by vm_compute.
Defined.

End DataExtraExamples.
